(** * Uno server: a shallow embedding of [uno/uno.py] and its properties

    The development follows the source file top to bottom: the Python
    primitives the program relies on ([list.pop], [str.upper], ...), the
    random source, the deck model, the line protocol, the registration
    stage and the turn engine.  Python lists are Rocq lists in the same
    order (the last element is the one [pop()] removes); a Python [str] is
    a Rocq [string]: the names and replies the server reads are texts
    of code points below 256 (texts with other characters are outside
    the model) and what it writes is ASCII; exceptions are explicit
    results. *)

From Stdlib Require Import Ascii ZArith QArith Lqa.
From stdpp Require Import base list strings pretty.

Local Open Scope nat_scope.

(** ** Python primitives *)

Module Py.

Inductive Exc : Type :=
| IndexError
| ZeroDivisionError
| ValueError
| TimeoutError
| OSError
| OverflowError.

#[global] Instance Exc_eq_dec : EqDecision Exc.
Proof. solve_decision. Defined.

(** [l.pop()] : the last element and the list without it. *)
Definition pop {A} (l : list A) : option (A * list A) :=
  match last l with
  | Some x => Some (x, removelast l)
  | None => None
  end.

(** [l.pop(idx)] for a signed index: a negative index counts from the
    end, and an index outside [-len, len) raises [IndexError]. *)
Definition pop_at {A} (l : list A) (idx : Z) : option (A * list A) :=
  let n := Z.of_nat (length l) in
  let j := if (idx <? 0)%Z then (idx + n)%Z else idx in
  if ((0 <=? j) && (j <? n))%Z
  then match l !! Z.to_nat j with
       | Some x => Some (x, delete (Z.to_nat j) l)
       | None => None
       end
  else None.

(** [l[idx % len(l)]]; the modulo raises on an empty list. *)
Definition index_mod {A} (l : list A) (idx : Z) : option A :=
  l !! Z.to_nat (idx mod Z.of_nat (length l)).

(** [s.upper()] on the letters a-z.  The program only compares the
    result with [DRAW] and with the four colours: a text with any other
    letter differs from these words before and after [upper]. *)
Definition upper_ascii (c : ascii) : ascii :=
  let n := nat_of_ascii c in
  if (97 <=? n) && (n <=? 122) then ascii_of_nat (n - 32) else c.

Fixpoint upper (s : string) : string :=
  match s with
  | EmptyString => EmptyString
  | String c s' => String (upper_ascii c) (upper s')
  end.

Definition digit_of (c : ascii) : option Z :=
  let n := nat_of_ascii c in
  if (48 <=? n) && (n <=? 57) then Some (Z.of_nat (n - 48)) else None.

(** The characters below 256 that [str.isdigit] accepts beside the
    decimal digits: superscript two, three and one. *)
Definition superscript_digit (c : ascii) : bool :=
  let n := nat_of_ascii c in
  (n =? 178) || (n =? 179) || (n =? 185).

Fixpoint all_digits (s : string) : bool :=
  match s with
  | EmptyString => true
  | String c s' =>
      (bool_decide (is_Some (digit_of c)) || superscript_digit c) && all_digits s'
  end.

(** [s.isdigit()] : non-empty and made of digit characters. *)
Definition isdigit (s : string) : bool :=
  match s with
  | EmptyString => false
  | _ => all_digits s
  end.

Fixpoint all_decimal (s : string) : bool :=
  match s with
  | EmptyString => true
  | String c s' => bool_decide (is_Some (digit_of c)) && all_decimal s'
  end.

(** [s.isdecimal()] : non-empty and made of the digits 0-9.  On a text
    that passed [isdigit], [int] succeeds exactly when this holds and
    raises [ValueError] otherwise. *)
Definition isdecimal (s : string) : bool :=
  match s with
  | EmptyString => false
  | _ => all_decimal s
  end.

Fixpoint int_acc (acc : Z) (s : string) : Z :=
  match s with
  | EmptyString => acc
  | String c s' => int_acc (10 * acc + default 0%Z (digit_of c)) s'
  end.

(** [int(s)] on a string of decimal digits. *)
Definition int (s : string) : Z := int_acc 0 s.

(** [s.startswith(p)] *)
Definition startswith (s p : string) : bool := String.prefix p s.

(** [sep.join(parts)] *)
Fixpoint join (sep : string) (parts : list string) : string :=
  match parts with
  | [] => ""
  | [p] => p
  | p :: ps => p +:+ sep +:+ join sep ps
  end.

(** [str(n)] *)
Definition str (n : nat) : string := pretty n.

End Py.

(** ** The random source

    [random] is an oracle: a list of draws consumed from the front (an
    exhausted list keeps answering 0).  [shuffle] is the library's
    Fisher-Yates loop, [for i in reversed(range(1, len(x)))], with
    [x[i], x[j] = x[j], x[i]] for [j = randbelow(i + 1)]. *)

Module Random.

Definition Rng : Type := list nat.

Definition randbelow (n : nat) (r : Rng) : nat * Rng :=
  match r with
  | [] => (0, [])
  | x :: r' => (x mod n, r')
  end.

Definition swap {A} (l : list A) (i j : nat) : list A :=
  match l !! i, l !! j with
  | Some a, Some b => <[j:=a]> (<[i:=b]> l)
  | _, _ => l
  end.

Fixpoint shuffle_from {A} (i : nat) (l : list A) (r : Rng) : list A * Rng :=
  match i with
  | 0 => (l, r)
  | S i' =>
      let '(j, r') := randbelow (S i) r in
      shuffle_from i' (swap l i j) r'
  end.

Definition shuffle {A} (l : list A) (r : Rng) : list A * Rng :=
  shuffle_from (length l - 1) l r.

(** [choice(seq)] ; an empty sequence raises [IndexError]. *)
Definition choice {A} (l : list A) (r : Rng) : option A * Rng :=
  match l with
  | [] => (None, r)
  | _ => let '(j, r') := randbelow (length l) r in (l !! j, r')
  end.

(** [randint(a, b)] *)
Definition randint (a b : nat) (r : Rng) : nat * Rng :=
  let '(j, r') := randbelow (b + 1 - a) r in (a + j, r').

End Random.

(** ** Deck model *)

Definition Card : Type := string * string.

Definition colors : list string := ["RED"; "BLUE"; "GREEN"; "YELLOW"].

Definition _dc : list string := colors ++ colors.

(** The module-level list [cards], built by the four loops of the source. *)
Definition cards : list Card :=
  map (λ c, ("0", c)) colors
  ++ flat_map (λ c, map (λ x, (Py.str x, c)) (seq 1 9)) _dc
  ++ flat_map (λ c, [("SKIP", c); ("REVERSE", c); ("DRAW2", c)]) _dc
  ++ concat (replicate 4 [("WILD", "ALL"); ("WILD4", "ALL")]).

Definition generate_deck (r : Random.Rng) : list Card * Random.Rng :=
  Random.shuffle cards r.

(** [[deck.pop() for x in range(n)]] : the cards in the order they are
    popped; [None] when the deck runs out ([IndexError]). *)
Fixpoint pop_n (n : nat) (deck : list Card) : option (list Card * list Card) :=
  match n with
  | 0 => Some ([], deck)
  | S n' =>
      match Py.pop deck with
      | Some (c, deck') =>
          match pop_n n' deck' with
          | Some (h, deck'') => Some (c :: h, deck'')
          | None => None
          end
      | None => None
      end
  end.

Definition generate_hand (deck : list Card) : option (list Card * list Card) :=
  pop_n 7 deck.

(** [fcard], [fhand] *)
Definition fcard (card : Card) : string := card.1 +:+ " " +:+ card.2.

Definition fhand (hand : list Card) : string := Py.join ", " (map fcard hand).

(** [draw_card(deck, played)] : the card drawn, the new deck and the new
    discard pile, or the exception raised. *)
Definition draw_card (deck played : list Card) (r : Random.Rng)
  : (Py.Exc + (Card * list Card * list Card)) * Random.Rng :=
  match Py.pop deck with
  | Some (c, deck') => (inr (c, deck', played), r)
  | None =>
      match Py.pop played with
      | None => (inl Py.IndexError, r)
      | Some (top, rest) =>
          let '(shuffled, r') := Random.shuffle rest r in
          match Py.pop (deck ++ shuffled) with
          | Some (c, deck') => (inr (c, deck', [top]), r')
          | None => (inl Py.IndexError, r')
          end
      end
  end.

(** The composition of the deck as the specification words it: one "0"
    per colour, two of each other coloured rank per colour, four of each
    wild rank with colour "ALL". *)
Definition canonical_count (c : Card) : nat :=
  if bool_decide (c.1 = "0") then
    if bool_decide (c.2 ∈ colors) then 1 else 0
  else if bool_decide (c.1 ∈ ["1"; "2"; "3"; "4"; "5"; "6"; "7"; "8"; "9";
                              "SKIP"; "REVERSE"; "DRAW2"]) then
    if bool_decide (c.2 ∈ colors) then 2 else 0
  else if bool_decide (c.1 ∈ ["WILD"; "WILD4"]) then
    if bool_decide (c.2 = "ALL") then 4 else 0
  else 0.

Definition count_card (c : Card) (l : list Card) : nat :=
  length (filter (λ d, d = c) l).

Definition rank_total (r : string) (l : list Card) : nat :=
  length (filter (λ d, d.1 = r) l).

(** ** Protocol codec and notification sink *)

Module Protocol.

Definition quote : string := String (ascii_of_nat 34) "".
Definition backslash : string := String (ascii_of_nat 92) "".
Definition newline : string := String (ascii_of_nat 10) "".

Definition hex_digit (n : nat) : ascii :=
  if n <? 10 then ascii_of_nat (48 + n) else ascii_of_nat (87 + n).

(** One character of [json.dumps] output with [ensure_ascii]: the two
    characters that must be escaped, the short escapes, [\u00xx] for
    what is left outside the printable ASCII range. *)
Definition escape_char (c : ascii) : string :=
  let n := nat_of_ascii c in
  if n =? 34 then backslash +:+ quote
  else if n =? 92 then backslash +:+ backslash
  else if n =? 10 then backslash +:+ "n"
  else if n =? 13 then backslash +:+ "r"
  else if n =? 9 then backslash +:+ "t"
  else if n =? 8 then backslash +:+ "b"
  else if n =? 12 then backslash +:+ "f"
  else if (32 <=? n) && (n <=? 126) then String c ""
  else backslash +:+ "u00"
       +:+ String (hex_digit (n / 16)) (String (hex_digit (n mod 16)) "").

Fixpoint escape (s : string) : string :=
  match s with
  | EmptyString => EmptyString
  | String c s' => escape_char c +:+ escape s'
  end.

Definition json_string (s : string) : string := quote +:+ escape s +:+ quote.

(** [json.dumps({key: value})] with the default separators. *)
Definition dumps (key value : string) : string :=
  "{" +:+ json_string key +:+ ": " +:+ json_string value +:+ "}".

Inductive Event : Type :=
| Print (text : string)
| Send (sock : nat) (data : string)
| Close (sock : nat).

#[global] Instance Event_eq_dec : EqDecision Event.
Proof. solve_decision. Defined.

Definition broadcast (connected : list nat) (message : list string) : list Event :=
  let message := Py.join " " message in
  Print message :: map (λ sock, Send sock (dumps "message" message +:+ newline)) connected.

Definition send_user (user : nat) (message : list string) : list Event :=
  [Send user (dumps "message" (Py.join " " message) +:+ newline)].

(** The sending half of [send_input]; the blocking [recv] is the
    caller's next reply. *)
Definition send_input (user : nat) (message : list string) : list Event :=
  [Send user (dumps "input" (Py.join " " message) +:+ newline)].

(** What [await_usernames] sends to a connection that did not name
    itself before it closes it. *)
Definition late_registration (sock : nat) : list Event :=
  [Send sock (dumps "error" "You didn't send a name in time!"); Close sock].


(** The sockets a log closes, in order. *)
Definition closed (log : list Event) : list nat :=
  omap (λ e, match e with Close sock => Some sock | _ => None end) log.

(** Every byte string handed to [sock.send] in a log. *)
Definition transmissions (log : list Event) : list string :=
  omap (λ e, match e with Send _ data => Some data | _ => None end) log.

Fixpoint has_newline (s : string) : bool :=
  match s with
  | EmptyString => false
  | String c s' => (nat_of_ascii c =? 10) || has_newline s'
  end.


(** The wire format of section 6 of the specification: one JSON object
    with a single key among the three, in the encoding of [dumps], then
    a newline. *)
Definition wire_line (data : string) : Prop :=
  ∃ key value,
    key ∈ ["message"; "input"; "error"]
    ∧ data = dumps key value +:+ newline.

End Protocol.

(** ** Registration stage *)

Module Registration.

Import Protocol.

(** What one iteration of a registration loop observes: what [select]
    reported ready, if anything, and what the monotonic clock read
    afterwards.  [select] reports nothing when its wait ends with no
    socket ready, and also when it raises instead of waiting. *)
Record ConnectObs : Type := {
  co_ready : bool;
  co_accept : nat * string * nat;
  co_now : Q
}.

Record NameObs : Type := {
  no_ready : list (nat * string * (string * nat));
  no_now : Q
}.

Inductive Outcome (A : Type) : Type :=
| Returned (a : A)
| Raised (e : Py.Exc)
| Pending.
Arguments Returned {A} a.
Arguments Raised {A} e.
Arguments Pending {A}.

(** The longest wait [select] takes, in seconds: it keeps its timeout
    as a signed 64-bit count of nanoseconds and raises [OverflowError]
    on a longer one. *)
Definition select_limit : Q := 9223372036854775807 # 1000000000.

(** The socket [select] is handed: the listening socket until the first
    [accept], whose result is bound to the same variable [sock]. *)
Inductive Watched : Type := Listening | Accepted (conn : nat).

Definition finish_connect (connected : list nat) : Outcome (list nat) :=
  match connected with
  | [] => Raised Py.TimeoutError
  | _ => Returned connected
  end.

(** The [while] loop of [await_connect], one observation per iteration.
    [select] is given [timeout * 1000]: a negative value makes it raise
    [ValueError], and where it reports no socket, a value above
    [select_limit] is why: it has raised [OverflowError]. *)
Fixpoint connect_loop (maxconnections : Z) (stime : Q) (obs : list ConnectObs)
    (sock : Watched) (connected : list nat) (timeout : Q) (log : list Event)
  : Outcome (list nat) * Q * list Event :=
  if bool_decide (Z.of_nat (length connected) = maxconnections)
  then (finish_connect connected, timeout, log)
  else
    match obs with
    | [] => (Pending, timeout, log)
    | o :: obs' =>
        if negb (Qle_bool 0 (timeout * 1000)) then (Raised Py.ValueError, timeout, log)
        else
          let accepted :=
            if co_ready o then
              match sock with
              | Listening =>
                  let '(conn, addr, port) := co_accept o in
                  let connected' := connected ++ [conn] in
                  inr (Accepted conn, connected',
                       log ++ broadcast connected' [addr +:+ ":" +:+ Py.str port +:+ " connected!"])
              | Accepted _ => inl Py.OSError
              end
            else if negb (Qle_bool (timeout * 1000) select_limit) then inl Py.OverflowError
            else inr (sock, connected, log) in
          match accepted with
          | inl e => (Raised e, timeout, log)
          | inr (sock', connected', log') =>
              let timeout' := (timeout - (stime - co_now o))%Q in
              if Qle_bool timeout' 0
              then (finish_connect connected', timeout', log')
              else connect_loop maxconnections stime obs' sock' connected' timeout' log'
          end
    end.

Definition await_connect (maxconnections : Z) (timeout stime : Q) (obs : list ConnectObs)
  : Outcome (list nat) * Q * list Event :=
  connect_loop maxconnections stime obs Listening [] timeout [].

(** [named[sock] = name] on an insertion-ordered dictionary. *)
Fixpoint dict_set (k : nat) (v : string) (d : list (nat * string)) : list (nat * string) :=
  match d with
  | [] => [(k, v)]
  | (k', v') :: d' => if bool_decide (k' = k) then (k, v) :: d' else (k', v') :: dict_set k v d'
  end.

(** [l.remove(x)] : the first occurrence goes; [None] is [ValueError]. *)
Fixpoint remove_first (x : nat) (l : list nat) : option (list nat) :=
  match l with
  | [] => None
  | y :: l' => if bool_decide (y = x) then Some l' else cons y <$> remove_first x l'
  end.

(** The body of [for sock in rr]. *)
Fixpoint name_ready (all : list nat) (rr : list (nat * string * (string * nat)))
    (named : list (nat * string)) (connected : list nat) (log : list Event)
  : Py.Exc + (list (nat * string) * list nat * list Event) :=
  match rr with
  | [] => inr (named, connected, log)
  | (sock, name, (addr, port)) :: rr' =>
      let log' := log ++ broadcast all
                    [addr +:+ ":" +:+ Py.str port +:+ " has chosen name " +:+ name +:+ "!"] in
      match remove_first sock connected with
      | None => inl Py.ValueError
      | Some connected' => name_ready all rr' (dict_set sock name named) connected' log'
      end
  end.

Definition finish_names (named : list (nat * string)) (connected : list nat) (log : list Event)
  : Outcome (list (nat * string)) * list Event :=
  match named with
  | [] => (Raised Py.TimeoutError, log)
  | _ => (Returned named, log ++ flat_map late_registration connected)
  end.

(** The [while] loop of [await_usernames], with the same [select]. *)
Fixpoint names_loop (cnum : nat) (all : list nat) (stime : Q) (obs : list NameObs)
    (named : list (nat * string)) (connected : list nat) (timeout : Q) (log : list Event)
  : Outcome (list (nat * string)) * Q * list Event :=
  if bool_decide (length named < cnum) then
    match obs with
    | [] => (Pending, timeout, log)
    | o :: obs' =>
        if negb (Qle_bool 0 (timeout * 1000)) then (Raised Py.ValueError, timeout, log)
        else if bool_decide (no_ready o = []) && negb (Qle_bool (timeout * 1000) select_limit)
        then (Raised Py.OverflowError, timeout, log)
        else
          let timeout' := (timeout - (stime - no_now o))%Q in
          match name_ready all (no_ready o) named connected log with
          | inl e => (Raised e, timeout', log)
          | inr (named', connected', log') =>
              if Qle_bool timeout' 0
              then let '(res, log'') := finish_names named' connected' log' in (res, timeout', log'')
              else names_loop cnum all stime obs' named' connected' timeout' log'
          end
    end
  else let '(res, log') := finish_names named connected log in (res, timeout, log').

Definition await_usernames (connected : list nat) (timeout stime : Q) (obs : list NameObs)
  : Outcome (list (nat * string)) * Q * list Event :=
  names_loop (length connected) connected stime obs [] connected timeout [].

End Registration.

(** ** Turn engine *)

Module Engine.

Import Protocol.

(** A play-order entry is [((socket, name), hand)] for a remote player
    and [(name, hand)] for a computer player. *)
Inductive Player : Type :=
| Human (sock : nat) (name : string)
| AI (name : string).

#[global] Instance Player_eq_dec : EqDecision Player.
Proof. solve_decision. Defined.

Definition player_name (p : Player) : string :=
  match p with
  | Human _ name => name
  | AI name => name
  end.

(** The three lists [start] owns. *)
Record Table : Type := mkTable {
  deck : list Card;
  played : list Card;
  play_order : list (Player * list Card)
}.

(** What lies outside the engine: the text each socket will deliver to
    successive [recv] calls, the random source, and everything written
    so far. *)
Record World : Type := mkWorld {
  inbox : nat → list string;
  rng : Random.Rng;
  log : list Event
}.

Definition say (evs : list Event) (w : World) : World :=
  mkWorld (inbox w) (rng w) (log w ++ evs).

Definition is_wild (card : Card) : bool := Py.startswith card.1 "WILD".

(** The test of lines 139 and 164 against a given top card. *)
Definition legal (card top : Card) : bool :=
  is_wild card || (bool_decide (card.1 = top.1) || bool_decide (card.2 = top.2)).

(** The same test as the source evaluates it: [played[-1]] is only read
    for a card that is not wild, and raises on an empty pile. *)
Definition legal_on (card : Card) (played : list Card) : option bool :=
  if is_wild card then Some true
  else (λ top : Card, bool_decide (card.1 = top.1) || bool_decide (card.2 = top.2))
         <$> last played.

Inductive Decision : Type :=
| Drew
| Play (card : Card) (hand' : list Card)
| Fail (e : Py.Exc)
| Stuck.

(** One pass through the body of the card-selection loop (lines
    127-147) on the reply [dec]. *)
Inductive Attempt : Type :=
| Drawn
| Accepted (card : Card) (hand' : list Card)
| Refused (notice : string)
| Failed (e : Py.Exc).

Definition attempt (hand played : list Card) (dec : string) : Attempt :=
  if bool_decide (Py.upper dec = "DRAW") then Drawn
  else if negb (Py.isdigit dec) then Refused "That isnt a valid index! Send a number!"
  else if negb (Py.isdecimal dec) then Failed Py.ValueError
  else if (Z.of_nat (length hand) <? Py.int dec - 1)%Z then
    Refused ("That is an invalid index! You only hand " +:+ Py.str (length hand) +:+ " cards!")
  else
    let idx := (Py.int dec - 1)%Z in
    match Py.index_mod hand idx with
    | None => Failed Py.ZeroDivisionError
    | Some ncard =>
        match legal_on ncard played with
        | None => Failed Py.IndexError
        | Some true =>
            match Py.pop_at hand idx with
            | Some (card, hand') => Accepted card hand'
            | None => Failed Py.IndexError
            end
        | Some false =>
            match last played with
            | None => Failed Py.IndexError
            | Some top =>
                Refused ("You cannot play " +:+ fcard ncard +:+ " on a "
                           +:+ fcard top +:+ " try again!")
            end
        end
    end.

(** The card-selection loop of a remote player, over the replies its
    socket will deliver.  A reply that is refused sends its notice and
    goes round again with the same [hand]. *)
Fixpoint select_card (sock : nat) (hand played : list Card)
    (replies : list string) (log : list Event)
  : Decision * list string * list Event :=
  let log := log ++ send_input sock ["Select your card: "] in
  match replies with
  | [] => (Stuck, [], log)
  | dec :: replies' =>
      match attempt hand played dec with
      | Drawn => (Drew, replies', log)
      | Accepted card hand' => (Play card hand', replies', log)
      | Refused notice =>
          select_card sock hand played replies' (log ++ send_user sock [notice])
      | Failed e => (Fail e, replies', log)
      end
  end.

(** The colour-selection loop that follows a wild card. *)
Fixpoint select_color (sock : nat) (replies : list string) (log : list Event)
  : option string * list string * list Event :=
  let log := log ++ send_input sock ["Select a color (RED, YELLOW, GREEN, BLUE): "] in
  match replies with
  | [] => (None, [], log)
  | reply :: replies' =>
      let newcolor := Py.upper reply in
      if bool_decide (newcolor ∈ colors) then (Some newcolor, replies', log)
      else select_color sock replies' (log ++ send_user sock ["That color is invalid! Try again"])
  end.

(** [[j for j, item in enumerate(hand) if ...]] *)
Fixpoint legal_choices (j : nat) (hand played : list Card) : option (list nat) :=
  match hand with
  | [] => Some []
  | item :: hand' =>
      match legal_on item played with
      | None => None
      | Some ok =>
          (λ rest, if ok then j :: rest else rest) <$> legal_choices (S j) hand' played
      end
  end.

(** [Counter(iterable)] keeps its keys in the order they first appear. *)
Fixpoint counter_add (k : string) (count : list (string * nat)) : list (string * nat) :=
  match count with
  | [] => [(k, 1)]
  | (k', n) :: count' =>
      if bool_decide (k' = k) then (k', S n) :: count' else (k', n) :: counter_add k count'
  end.

Definition Counter (keys : list string) : list (string * nat) :=
  foldl (λ count k, counter_add k count) [] keys.

(** [max(items, key=lambda x: x[1], default=d)] : the first item among
    those with the greatest count. *)
Fixpoint max_from (best : string * nat) (items : list (string * nat)) : string * nat :=
  match items with
  | [] => best
  | x :: items' => max_from (if best.2 <? x.2 then x else best) items'
  end.

Definition max_count (items : list (string * nat)) (d : string * nat) : string * nat :=
  match items with
  | [] => d
  | x :: items' => max_from x items'
  end.

Fixpoint last_char (s : string) : string :=
  match s with
  | EmptyString => EmptyString
  | String c EmptyString => s
  | String _ s' => last_char s'
  end.

(** Lines 175-177: [ndraw]. *)
Definition ndraw_of (card : Card) : nat :=
  if bool_decide (card.1 ∈ ["DRAW2"; "WILD4"]) then Z.to_nat (Py.int (last_char card.1)) else 0.

(** [draw_card(deck, played) for _ in range(n)] *)
Fixpoint draw_n (n : nat) (deck played : list Card) (r : Random.Rng)
  : (Py.Exc + (list Card * list Card * list Card)) * Random.Rng :=
  match n with
  | 0 => (inr ([], deck, played), r)
  | S n' =>
      match draw_card deck played r with
      | (inl e, r') => (inl e, r')
      | (inr (c, deck', played'), r') =>
          match draw_n n' deck' played' r' with
          | (inl e, r'') => (inl e, r'')
          | (inr (cs, deck'', played''), r'') => (inr (c :: cs, deck'', played''), r'')
          end
      end
  end.

Inductive Decided : Type :=
| DDrew (w : World)
| DPlayed (card : Card) (hand' : list Card) (w : World)
| DWon (w : World)
| DRaise (e : Py.Exc) (w : World)
| DBlock (w : World).

Definition deliver (sock : nat) (replies : list string) (w : World) (log' : list Event) : World :=
  mkWorld (λ s, if bool_decide (s = sock) then replies else inbox w s) (rng w) log'.

(** Lines 119-157: the turn of a remote player up to the card it puts
    down.  [connected] are the sockets every broadcast goes to. *)
Definition human_decide (connected : list nat) (sock : nat) (player : string)
    (hand played : list Card) (w : World) : Decided :=
  match last played with
  | None => DRaise Py.IndexError w
  | Some top =>
      let log0 := log w
                  ++ broadcast connected
                       ["Its " +:+ player +:+ "'s turn! Current card is " +:+ fcard top]
                  ++ send_user sock ["Its your turn!"; fhand hand] in
      let '(d, replies, log1) := select_card sock hand played (inbox w sock) log0 in
      let w1 := deliver sock replies w log1 in
      match d with
      | Drew => DDrew w1
      | Fail e => DRaise e w1
      | Stuck => DBlock w1
      | Play card hand' =>
          match hand' with
          | [] => DWon (say (broadcast connected [player; "won!"]) w1)
          | _ =>
              if is_wild card then
                let '(c, replies', log2) := select_color sock replies log1 in
                let w2 := deliver sock replies' w log2 in
                match c with
                | None => DBlock w2
                | Some newcolor => DPlayed ("WILD", newcolor) hand' w2
                end
              else DPlayed card hand' w1
          end
      end
  end.

(** Lines 160-172: the turn of a computer player up to the card it puts
    down. *)
Definition ai_decide (connected : list nat) (player : string)
    (hand played : list Card) (w : World) : Decided :=
  let w0 := say (broadcast connected ["It is " +:+ player +:+ "'s turn!"]) w in
  let '(_, r1) := Random.randint 1 4 (rng w0) in
  match legal_choices 0 hand played with
  | None => DRaise Py.IndexError (mkWorld (inbox w0) r1 (log w0))
  | Some [] => DDrew (mkWorld (inbox w0) r1 (log w0))
  | Some choices =>
      let '(j, r2) := Random.choice choices r1 in
      match j ≫= λ j, Py.pop_at hand (Z.of_nat j) with
      | None => DRaise Py.IndexError (mkWorld (inbox w0) r2 (log w0))
      | Some (card, hand') =>
          if is_wild card then
            let count := Counter (map snd hand') in
            match Random.choice colors r2 with
            | (None, r3) => DRaise Py.IndexError (mkWorld (inbox w0) r3 (log w0))
            | (Some fallback, r3) =>
                let '(color, _) := max_count count (fallback, 0) in
                DPlayed (card.1, color) hand' (mkWorld (inbox w0) r3 (log w0))
            end
          else DPlayed card hand' (mkWorld (inbox w0) r2 (log w0))
      end
  end.

Inductive Step : Type :=
| Continue (skipped : bool) (t : Table) (w : World)
| Return (w : World)
| Raise (e : Py.Exc) (w : World)
| Block (w : World).

(** Lines 174-192: what follows a card put down by the player at
    position [i], whose hand is now [hand']. *)
Definition apply_effects (connected : list nat) (i : nat) (who : Player)
    (card : Card) (hand' : list Card) (t : Table) (w : World) : Step :=
  let ndraw := ndraw_of card in
  let order1 := <[i := (who, hand')]> (play_order t) in
  let order2 := if bool_decide (card.1 = "REVERSE") then reverse order1 else order1 in
  let skipped := bool_decide (card.1 = "SKIP") in
  let w1 := say (broadcast connected [player_name who +:+ " played " +:+ fcard card]) w in
  let played1 := played t ++ [card] in
  if ndraw =? 0 then Continue skipped (mkTable (deck t) played1 order2) w1
  else
    let next := (i + 1) mod length order2 in
    match draw_n ndraw (deck t) played1 (rng w1) with
    | (inl e, r') => Raise e (mkWorld (inbox w1) r' (log w1))
    | (inr (drawn, deck', played2), r') =>
        match order2 !! next with
        | None => Raise Py.IndexError (mkWorld (inbox w1) r' (log w1))
        | Some (name, hand_next) =>
            Continue skipped
              (mkTable deck' played2 (<[next := (name, hand_next ++ drawn)]> order2))
              (say (broadcast connected [player_name name; "drew " +:+ Py.str ndraw +:+ " cards"])
                   (mkWorld (inbox w1) r' (log w1)))
        end
    end.

(** Lines 193-195: the player at position [i] draws one card. *)
Definition draw_one (connected : list nat) (i : nat) (who : Player)
    (hand : list Card) (t : Table) (w : World) : Step :=
  match draw_card (deck t) (played t) (rng w) with
  | (inl e, r') => Raise e (mkWorld (inbox w) r' (log w))
  | (inr (c, deck', played'), r') =>
      Continue false
        (mkTable deck' played' (<[i := (who, hand ++ [c])]> (play_order t)))
        (say (broadcast connected [player_name who; "drew a card"])
             (mkWorld (inbox w) r' (log w)))
  end.

(** One pass through the body of [for i, (player, hand) in
    enumerate(play_order)]. *)
Definition turn (connected : list nat) (i : nat) (skipped : bool)
    (who : Player) (hand : list Card) (t : Table) (w : World) : Step :=
  if skipped then
    Continue false t (say (broadcast connected [player_name who; "was skipped"]) w)
  else
    let decided :=
      match who with
      | Human sock player => human_decide connected sock player hand (played t) w
      | AI player => ai_decide connected player hand (played t) w
      end in
    match decided with
    | DDrew w' => draw_one connected i who hand t w'
    | DPlayed card hand' w' => apply_effects connected i who card hand' t w'
    | DWon w' => Return w'
    | DRaise e w' => Raise e w'
    | DBlock w' => Block w'
    end.

Inductive Final : Type :=
| Finished (w : World)
| Aborted (e : Py.Exc) (w : World)
| Hung (w : World)
| Unfinished (i : nat) (skipped : bool) (t : Table) (w : World).

(** The two nested loops of [start], [fuel] passes through the [for]
    header.  When the [for] runs off the end of [play_order] the [while
    True] body starts over: [skipped = False], then position 0. *)
Fixpoint run (connected : list nat) (fuel : nat) (i : nat) (skipped : bool)
    (t : Table) (w : World) : Final :=
  match fuel with
  | 0 => Unfinished i skipped t w
  | S fuel' =>
      match play_order t !! i with
      | None => run connected fuel' 0 false t w
      | Some (who, hand) =>
          match turn connected i skipped who hand t w with
          | Continue skipped' t' w' => run connected fuel' (S i) skipped' t' w'
          | Return w' => Finished w'
          | Raise e w' => Aborted e w'
          | Block w' => Hung w'
          end
      end
  end.

(** [[(p, generate_hand(deck)) for p in players]] *)
Fixpoint deal (players : list Player) (deck : list Card)
  : option (list (Player * list Card) * list Card) :=
  match players with
  | [] => Some ([], deck)
  | p :: players' =>
      match generate_hand deck with
      | None => None
      | Some (hand, deck') =>
          match deal players' deck' with
          | None => None
          | Some (entries, deck'') => Some ((p, hand) :: entries, deck'')
          end
      end
  end.

(** Lines 93-108: the checks and the deal.  [connected] is the
    dictionary of the registration stage, in insertion order. *)
Definition setup (connected : list (nat * string)) (n_ai_players : Z) (w : World)
  : Py.Exc + (Table * World) :=
  if (n_ai_players <? 0)%Z then inl Py.ValueError
  else
    let n := (n_ai_players + Z.of_nat (length connected))%Z in
    if (n =? 0)%Z then inl Py.ZeroDivisionError
    else if (Z.of_nat (length cards) / n <? 7)%Z then inl Py.ValueError
    else
      let '(deck0, r) := generate_deck (rng w) in
      let ais := map (λ n, AI ("Player " +:+ Py.str n)) (seq 0 (Z.to_nat n_ai_players)) in
      let humans := map (λ user : nat * string, Human user.1 user.2) connected in
      match deal ais deck0 with
      | None => inl Py.IndexError
      | Some (ai_hands, deck1) =>
          match deal humans deck1 with
          | None => inl Py.IndexError
          | Some (play_order, deck2) =>
              match Py.pop deck2 with
              | None => inl Py.IndexError
              | Some (sc, deck3) =>
                  inr (mkTable deck3 [sc] (play_order ++ ai_hands),
                       mkWorld (inbox w) r
                         (log w ++ broadcast connected.*1 ["Start Card: " +:+ fcard sc]))
              end
          end
      end.

Definition start (connected : list (nat * string)) (n_ai_players : Z)
    (fuel : nat) (w : World) : Final :=
  match setup connected n_ai_players w with
  | inl e => Aborted e w
  | inr (t, w') => run connected.*1 fuel 0 false t w'
  end.

(** Every card on the table, wherever it lies. *)
Definition all_cards (t : Table) : list Card :=
  deck t ++ played t ++ concat (play_order t).*2.

(** The card a player puts down is the card that left its hand, or, when
    that card is wild, a wild card in its place. *)
Definition put_down (hand : list Card) (card : Card) (hand' : list Card) : Prop :=
  ∃ card0,
    hand ≡ₚ card0 :: hand'
    ∧ (card = card0 ∨ (is_wild card0 = true ∧ is_wild card = true)).

(** Two lists hold the same cards, or the same cards but for one wild
    card with a wild card in its place. *)
Definition same_up_to_wild (l l' : list Card) : Prop :=
  l' ≡ₚ l
  ∨ ∃ c c' rest,
      is_wild c = true ∧ is_wild c' = true ∧ l ≡ₚ c :: rest ∧ l' ≡ₚ c' :: rest.

(** What a [Counter] holds for a key, 0 when the key is missing. *)
Fixpoint count_of (k : string) (count : list (string * nat)) : nat :=
  match count with
  | [] => 0
  | (k', n) :: count' => if bool_decide (k' = k) then n else count_of k count'
  end.

(** How often a key occurs among the keys counted. *)
Definition occurrences (k : string) (keys : list string) : nat :=
  length (filter (λ x, x = k) keys).

(** No remote player sits with an empty hand. *)
Definition humans_hold_cards (order : list (Player * list Card)) : Prop :=
  Forall (λ entry : Player * list Card,
            match entry.1 with Human _ _ => entry.2 ≠ [] | AI _ => True end) order.

(** A card read as the plain wild card when it is wild. *)
Definition plain (card : Card) : Card :=
  if is_wild card then ("WILD", "ALL") else card.

(** A card with its colour taken off when it is wild: what a wild card
    on the discard pile and the card it was in the hand have in common
    when line 172 gave it its colour. *)
Definition uncoloured (card : Card) : Card :=
  if is_wild card then (card.1, "ALL") else card.

(** The card a player puts down is the card that left its hand, or, when
    that card is wild, the card of the same rank in some colour. *)
Definition put_down_in_colour (hand : list Card) (card : Card) (hand' : list Card) : Prop :=
  ∃ card0,
    hand ≡ₚ card0 :: hand'
    ∧ (card = card0 ∨ (is_wild card0 = true ∧ ∃ colour, card = (card0.1, colour))).

(** Two lists hold the same cards, or the same cards but for one wild
    card that has changed colour. *)
Definition same_up_to_colour (l l' : list Card) : Prop :=
  l' ≡ₚ l
  ∨ ∃ c colour rest,
      is_wild c = true ∧ l ≡ₚ c :: rest ∧ l' ≡ₚ (c.1, colour) :: rest.

(** The turn of the player [who] is not one in which a remote player
    gives up a wild card of another rank than WILD (in the deck of this
    game: a WILD4). *)
Definition plain_wilds (who : Player) (hand played : list Card) (w : World) : Prop :=
  match who with
  | AI _ => True
  | Human sock _ =>
      ∀ log card hand' replies' log',
        select_card sock hand played (inbox w sock) log = (Play card hand', replies', log') →
        is_wild card = true → card.1 = "WILD"
  end.

(** The same of every turn taken in the [fuel] passes of [run]. *)
Fixpoint run_plain_wilds (connected : list nat) (fuel : nat) (i : nat) (skipped : bool)
    (t : Table) (w : World) : Prop :=
  match fuel with
  | 0 => True
  | S fuel' =>
      match play_order t !! i with
      | None => run_plain_wilds connected fuel' 0 false t w
      | Some (who, hand) =>
          (if skipped then True else plain_wilds who hand (played t) w)
          ∧ match turn connected i skipped who hand t w with
            | Continue skipped' t' w' => run_plain_wilds connected fuel' (S i) skipped' t' w'
            | _ => True
            end
      end
  end.

Definition game_plain_wilds (connected : list (nat * string)) (n_ai_players : Z)
    (fuel : nat) (w : World) : Prop :=
  match setup connected n_ai_players w with
  | inl _ => True
  | inr (t, w') => run_plain_wilds connected.*1 fuel 0 false t w'
  end.

End Engine.

(** ** The client's reader ([unoclient.py])

    [Client.recv] cuts each chunk it receives at the newlines, strips
    the pieces and hands those that are not empty to [json.loads]. *)

Module Client.

(** [str.isspace] on one ASCII character. *)
Definition is_space (c : ascii) : bool :=
  let n := nat_of_ascii c in
  ((9 <=? n) && (n <=? 13)) || ((28 <=? n) && (n <=? 32)).

(** [data.split(sep)] for the one-character separator newline. *)
Fixpoint split_newline (s : string) : list string :=
  match s with
  | EmptyString => [EmptyString]
  | String c s' =>
      if nat_of_ascii c =? 10 then EmptyString :: split_newline s'
      else match split_newline s' with
           | part :: parts => String c part :: parts
           | [] => [String c EmptyString]
           end
  end.

Fixpoint lstrip (s : string) : string :=
  match s with
  | EmptyString => EmptyString
  | String c s' => if is_space c then lstrip s' else s
  end.

Fixpoint rstrip (s : string) : string :=
  match s with
  | EmptyString => EmptyString
  | String c s' =>
      match rstrip s' with
      | EmptyString => if is_space c then EmptyString else String c EmptyString
      | t => String c t
      end
  end.

(** [part.strip()] *)
Definition strip (s : string) : string := lstrip (rstrip s).

(** The texts one chunk makes [recv] pass to [json.loads], in order. *)
Definition parts (data : string) : list string :=
  filter (λ part, part ≠ EmptyString) (map strip (split_newline data)).

(** [json.loads] as far as this protocol needs it: an object with one
    member whose name and value are strings, and [tuple(d.items())[0]]
    taken of it.  [None] stands for a text that is not of this shape
    (the server sends no other) or not JSON at all. *)
Definition hex_value (c : ascii) : option nat :=
  let n := nat_of_ascii c in
  if (48 <=? n) && (n <=? 57) then Some (n - 48)
  else if (97 <=? n) && (n <=? 102) then Some (n - 87)
  else if (65 <=? n) && (n <=? 70) then Some (n - 55)
  else None.

Definition simple_escape (c : ascii) : option ascii :=
  let n := nat_of_ascii c in
  if n =? 34 then Some (ascii_of_nat 34)
  else if n =? 92 then Some (ascii_of_nat 92)
  else if n =? 47 then Some (ascii_of_nat 47)
  else if n =? 98 then Some (ascii_of_nat 8)
  else if n =? 102 then Some (ascii_of_nat 12)
  else if n =? 110 then Some (ascii_of_nat 10)
  else if n =? 114 then Some (ascii_of_nat 13)
  else if n =? 116 then Some (ascii_of_nat 9)
  else None.

(** The body of a JSON string, from after the opening quote to the
    closing one: the text it stands for and what follows it. *)
Fixpoint scan_string (s : string) : option (string * string) :=
  match s with
  | EmptyString => None
  | String c s' =>
      let n := nat_of_ascii c in
      if n =? 34 then Some (EmptyString, s')
      else if n =? 92 then
        match s' with
        | EmptyString => None
        | String e s'' =>
            if nat_of_ascii e =? 117 then
              match s'' with
              | String h1 (String h2 (String h3 (String h4 rest))) =>
                  match hex_value h1, hex_value h2, hex_value h3, hex_value h4 with
                  | Some a, Some b, Some c, Some d =>
                      let code := ((a * 16 + b) * 16 + c) * 16 + d in
                      if code <? 256 then
                        match scan_string rest with
                        | Some (text, after) => Some (String (ascii_of_nat code) text, after)
                        | None => None
                        end
                      else None
                  | _, _, _, _ => None
                  end
              | _ => None
              end
            else
              match simple_escape e with
              | Some ch =>
                  match scan_string s'' with
                  | Some (text, after) => Some (String ch text, after)
                  | None => None
                  end
              | None => None
              end
        end
      else if n <? 32 then None
      else
        match scan_string s' with
        | Some (text, after) => Some (String c text, after)
        | None => None
        end
  end.

Definition is_json_space (c : ascii) : bool :=
  let n := nat_of_ascii c in
  (n =? 32) || (n =? 9) || (n =? 10) || (n =? 13).

Fixpoint skip_space (s : string) : string :=
  match s with
  | EmptyString => EmptyString
  | String c s' => if is_json_space c then skip_space s' else s
  end.

(** What is left once the character [n] has been read, if it is next. *)
Definition expect (n : nat) (s : string) : option string :=
  match skip_space s with
  | String c s' => if nat_of_ascii c =? n then Some s' else None
  | EmptyString => None
  end.

Definition loads (text : string) : option (string * string) :=
  s1 ← expect 123 text;
  s2 ← expect 34 s1;
  '(key, s3) ← scan_string s2;
  s4 ← expect 58 s3;
  s5 ← expect 34 s4;
  '(value, s6) ← scan_string s5;
  s7 ← expect 125 s6;
  match skip_space s7 with
  | EmptyString => Some (key, value)
  | _ => None
  end.

(** What [recv] yields for one chunk: the (kind, text) pairs, [None]
    where [json.loads] raises. *)
Definition recv (data : string) : list (option (string * string)) :=
  map loads (parts data).

(** What the user of the client sees and what the client sends. *)
Inductive Output : Type :=
| Shown (text : string)
| Replied (text : string).

(** How [Client.run] stops: the connection was closed and "Game over!"
    printed; an exception left [run] ([Exception(data)] on an error
    object, or the decoder's on a bad text); or it waits, for the user
    or for the server. *)
Inductive Ending : Type :=
| GameOver
| Failed (data : string)
| BadText
| AwaitingUser
| AwaitingServer.

(** The body of [for action, data in self.recv()] over what one chunk
    yields; [answers] is what the user will type at successive prompts. *)
Fixpoint handle (yielded : list (option (string * string))) (answers : list string)
  : list Output * list string * option Ending :=
  match yielded with
  | [] => ([], answers, None)
  | None :: _ => ([], answers, Some BadText)
  | Some (action, data) :: yielded' =>
      if bool_decide (action = "message") then
        let '(out, answers', ending) := handle yielded' answers in
        (Shown data :: out, answers', ending)
      else if bool_decide (action = "error") then ([], answers, Some (Failed data))
      else
        match answers with
        | [] => ([Shown data], [], Some AwaitingUser)
        | response :: answers' =>
            let '(out, answers'', ending) := handle yielded' answers' in
            (Shown data :: Replied response :: out, answers'', ending)
        end
  end.

(** [Client.run] over the chunks [socket.recv] delivers; the empty
    chunk is the closed connection. *)
Fixpoint run (chunks : list string) (answers : list string) : list Output * Ending :=
  match chunks with
  | [] => ([], AwaitingServer)
  | data :: chunks' =>
      if bool_decide (data = EmptyString) then ([Shown "Game over!"], GameOver)
      else
        let '(out, answers', ending) := handle (recv data) answers in
        match ending with
        | Some e => (out, e)
        | None => let '(out', e) := run chunks' answers' in (out ++ out', e)
        end
  end.

Definition replies (out : list Output) : list string :=
  omap (λ o, match o with Replied text => Some text | Shown _ => None end) out.

Definition shown (out : list Output) : list string :=
  omap (λ o, match o with Shown text => Some text | Replied _ => None end) out.

End Client.

(** * Properties *)

(** ** Python lists *)

Section PyFacts.

Context {A : Type}.
Implicit Types (l : list A) (x : A).

Lemma pop_nil : Py.pop (@nil A) = None.
Proof. reflexivity. Qed.

Lemma pop_snoc l x : Py.pop (l ++ [x]) = Some (x, l).
Proof. unfold Py.pop. by rewrite last_snoc, removelast_last. Qed.

Lemma pop_Some l x l' : Py.pop l = Some (x, l') → l = l' ++ [x].
Proof.
  destruct l as [|y l _] using rev_ind; [done|].
  rewrite pop_snoc. by intros [= -> ->].
Qed.

Lemma pop_None l : Py.pop l = None → l = [].
Proof.
  destruct l as [|y l _] using rev_ind; [done|]. by rewrite pop_snoc.
Qed.

Lemma pop_is_Some l : l ≠ [] → is_Some (Py.pop l).
Proof.
  destruct l as [|y l _] using rev_ind; [done|]. rewrite pop_snoc. eauto.
Qed.

(** [l.pop(idx)] succeeds exactly on [-len <= idx < len]; what it
    removes is the element at [idx mod len]. *)
Lemma pop_at_in_range l idx :
  (- Z.of_nat (length l) ≤ idx < Z.of_nat (length l))%Z →
  ∃ x, Py.index_mod l idx = Some x
       ∧ Py.pop_at l idx = Some (x, delete (Z.to_nat (idx mod Z.of_nat (length l))) l).
Proof.
  intros Hr. unfold Py.pop_at, Py.index_mod.
  set (n := Z.of_nat (length l)) in *.
  assert (Hj : (if (idx <? 0)%Z then (idx + n)%Z else idx) = (idx mod n)%Z).
  { destruct (Z.ltb_spec idx 0).
    - apply Z.mod_unique with (q := (-1)%Z); lia.
    - symmetry. apply Z.mod_small. lia. }
  rewrite Hj.
  assert (Hm : (0 ≤ idx mod n < n)%Z) by (apply Z.mod_pos_bound; lia).
  destruct (l !! Z.to_nat (idx mod n)) as [x|] eqn:Hx.
  - exists x. split; [done|].
    replace ((0 <=? idx mod n)%Z && (idx mod n <? n)%Z) with true; [done|].
    symmetry. apply andb_true_iff. split; [apply Z.leb_le|apply Z.ltb_lt]; lia.
  - apply lookup_ge_None in Hx. lia.
Qed.

Lemma pop_at_out_of_range l idx :
  (Z.of_nat (length l) ≤ idx)%Z → Py.pop_at l idx = None.
Proof.
  intros Hr. unfold Py.pop_at.
  destruct (Z.ltb_spec idx 0); [lia|].
  destruct (Z.ltb_spec idx (Z.of_nat (length l))); [lia|].
  by rewrite andb_false_r.
Qed.

Lemma pop_at_Permutation l idx x l' : Py.pop_at l idx = Some (x, l') → l ≡ₚ x :: l'.
Proof.
  unfold Py.pop_at. case_match; [|done].
  destruct (l !! _) as [y|] eqn:Hy; [|done].
  intros [= -> <-]. by apply delete_Permutation.
Qed.

Lemma index_mod_is_Some l idx : l ≠ [] → is_Some (Py.index_mod l idx).
Proof.
  intros Hl. unfold Py.index_mod. apply lookup_lt_is_Some.
  assert (0 < length l) by (destruct l; [done|simpl; lia]).
  pose proof (Z.mod_pos_bound idx (Z.of_nat (length l))). lia.
Qed.

End PyFacts.

(** ** The shuffle is a permutation *)

Section ShuffleFacts.

Context {A : Type}.
Implicit Types (l : list A).

Lemma swap_Permutation l i j : Random.swap l i j ≡ₚ l.
Proof.
  unfold Random.swap.
  destruct (l !! i) as [a|] eqn:Hi; [|done].
  destruct (l !! j) as [b|] eqn:Hj; [|done].
  by apply Permutation_insert_swap.
Qed.

Lemma shuffle_from_Permutation i l r : (Random.shuffle_from i l r).1 ≡ₚ l.
Proof.
  revert l r. induction i as [|i IH]; intros l r; [done|].
  cbn [Random.shuffle_from]. destruct (Random.randbelow _ r) as [j r'].
  rewrite IH. apply swap_Permutation.
Qed.

Lemma shuffle_Permutation l r : (Random.shuffle l r).1 ≡ₚ l.
Proof. apply shuffle_from_Permutation. Qed.

End ShuffleFacts.

(** ** Deck model *)

Section DeckFacts.

Implicit Types (c : Card) (l deck played : list Card) (r : Random.Rng).

Lemma count_card_Permutation c l l' : l ≡ₚ l' → count_card c l = count_card c l'.
Proof. intros H. unfold count_card. by rewrite H. Qed.

Lemma rank_total_Permutation s l l' : l ≡ₚ l' → rank_total s l = rank_total s l'.
Proof. intros H. unfold rank_total. by rewrite H. Qed.

Lemma count_card_absent c l : c ∉ l → count_card c l = 0.
Proof.
  unfold count_card. induction l as [|d l IH]; [done|].
  intros Hc. apply not_elem_of_cons in Hc as [Hne Hc].
  rewrite filter_cons_False by congruence. auto.
Qed.

Lemma cards_counted : Forall (λ c, count_card c cards = canonical_count c) cards.
Proof. apply (bool_decide_unpack _). vm_compute. exact I. Qed.

Lemma canonical_in_cards c : canonical_count c ≠ 0 → c ∈ cards.
Proof.
  destruct c as [s col]. unfold canonical_count. cbn [fst snd].
  repeat case_bool_decide; try done; intros _; subst;
    repeat match goal with
           | H : _ ∈ colors |- _ => unfold colors in H
           | H : _ ∈ _ :: _ |- _ => apply elem_of_cons in H as [->|H]
           | H : _ ∈ [] |- _ => by apply elem_of_nil in H
           end;
    apply (bool_decide_unpack _); vm_compute; exact I.
Qed.

Lemma cards_canonical c : count_card c cards = canonical_count c.
Proof.
  destruct (decide (c ∈ cards)) as [Hin|Hout].
  - by apply (proj1 (Forall_forall _ _) cards_counted).
  - rewrite count_card_absent by done.
    destruct (decide (canonical_count c = 0)) as [->|Hne]; [done|].
    by apply canonical_in_cards in Hne.
Qed.

Lemma generate_deck_Permutation r : (generate_deck r).1 ≡ₚ cards.
Proof. apply shuffle_Permutation. Qed.

(** C8. Whatever the random source, [generate_deck] returns the 108
    cards of the canonical composition: every card occurs as often as
    the composition says (one "0" per colour, two of each of "1".."9",
    SKIP, REVERSE and DRAW2 per colour, four WILD and four WILD4 of
    colour "ALL", nothing else), which makes four "0", eight of each
    other coloured rank and four of each wild rank; two calls return
    permutations of one another. *)
Theorem generate_deck_canonical r r' :
  length (generate_deck r).1 = 108
  ∧ (∀ c, count_card c (generate_deck r).1 = canonical_count c)
  ∧ rank_total "0" (generate_deck r).1 = 4
  ∧ (∀ s, s ∈ ["1"; "2"; "3"; "4"; "5"; "6"; "7"; "8"; "9"; "SKIP"; "REVERSE"; "DRAW2"] →
          rank_total s (generate_deck r).1 = 8)
  ∧ rank_total "WILD" (generate_deck r).1 = 4
  ∧ rank_total "WILD4" (generate_deck r).1 = 4
  ∧ (generate_deck r).1 ≡ₚ (generate_deck r').1.
Proof.
  pose proof (generate_deck_Permutation r) as Hr.
  pose proof (generate_deck_Permutation r') as Hr'.
  split_and!.
  - by rewrite Hr.
  - intros c. rewrite (count_card_Permutation _ _ _ Hr). apply cards_canonical.
  - by rewrite (rank_total_Permutation _ _ _ Hr).
  - intros s Hs. rewrite (rank_total_Permutation _ _ _ Hr).
    repeat (apply elem_of_cons in Hs as [->|Hs]; [by vm_compute|]).
    by apply elem_of_nil in Hs.
  - by rewrite (rank_total_Permutation _ _ _ Hr).
  - by rewrite (rank_total_Permutation _ _ _ Hr).
  - by rewrite Hr, Hr'.
Qed.

(** C4, as stated, fails: with an empty deck and a single discard the
    two piles hold one card between them and [draw_card] raises. *)
Lemma draw_card_single_discard_raises :
  1 ≤ length (@nil Card) + length [("5", "RED") : Card]
  ∧ (draw_card [] [("5", "RED")] []).1 = inl Py.IndexError.
Proof. split; [simpl; lia|reflexivity]. Qed.

(** C4, amended. [draw_card] returns a card whenever the deck is not
    empty or the discard pile holds at least two cards.  From a deck
    that is not empty it pops the last card and leaves the discard pile
    alone; from an empty deck it sets the top discard aside, makes a
    shuffle of the others the deck, leaves the discard pile holding the
    former top only, and pops from the refilled deck. *)
Theorem draw_card_returns deck played r :
  deck ≠ [] ∨ 2 ≤ length played →
  ∃ c deck' played',
    (draw_card deck played r).1 = inr (c, deck', played')
    ∧ ((deck = deck' ++ [c] ∧ played' = played)
       ∨ (deck = [] ∧ ∃ top rest,
            played = rest ++ [top] ∧ played' = [top]
            ∧ deck' ++ [c] = (Random.shuffle rest r).1
            ∧ deck' ++ [c] ≡ₚ rest)).
Proof.
  intros H. unfold draw_card.
  destruct (Py.pop deck) as [[c deck']|] eqn:Hd.
  { apply pop_Some in Hd. exists c, deck', played. split; [done|]. by left. }
  apply pop_None in Hd. subst deck. destruct H as [?|Hlen]; [done|].
  destruct played as [|top rest _] using rev_ind; [simpl in Hlen; lia|].
  rewrite pop_snoc.
  pose proof (shuffle_Permutation rest r) as Hp.
  destruct (Random.shuffle rest r) as [shuffled r'] eqn:Hs. simpl in Hp.
  rewrite length_app in Hlen. simpl in Hlen.
  destruct (Py.pop ([] ++ shuffled)) as [[c deck']|] eqn:Hd.
  - apply pop_Some in Hd. simpl in Hd. subst shuffled.
    exists c, deck', [top]. split; [done|]. right. split; [done|].
    exists top, rest. by rewrite Hs.
  - apply pop_None in Hd. simpl in Hd. subst shuffled.
    apply Permutation_length in Hp. simpl in Hp. lia.
Qed.

Lemma draw_card_returns_witness :
  ∃ c deck' played',
    (draw_card [] [("1", "RED"); ("2", "BLUE"); ("3", "GREEN")] [5]).1
    = inr (c, deck', played')
    ∧ (([] = deck' ++ [c] ∧ played' = [("1", "RED"); ("2", "BLUE"); ("3", "GREEN")])
       ∨ (@nil Card = [] ∧ ∃ top rest,
            [("1", "RED"); ("2", "BLUE"); ("3", "GREEN")] = rest ++ [top]
            ∧ played' = [top]
            ∧ deck' ++ [c] = (Random.shuffle rest [5]).1
            ∧ deck' ++ [c] ≡ₚ rest)).
Proof.
  apply (draw_card_returns [] [("1", "RED"); ("2", "BLUE"); ("3", "GREEN")] [5]).
  right. simpl. lia.
Defined.

(** The rest of the picture: an empty deck over at most one discard is
    where [draw_card] raises, and nowhere else. *)
Lemma draw_card_raises_iff deck played r :
  (∃ e, (draw_card deck played r).1 = inl e) ↔ deck = [] ∧ length played ≤ 1.
Proof.
  unfold draw_card. destruct deck as [|x deck _] using rev_ind.
  - rewrite pop_nil. destruct played as [|top rest _] using rev_ind.
    + rewrite pop_nil. simpl. split; [intros _; split; [done|lia]|eauto].
    + rewrite pop_snoc, length_app. cbn [length].
      pose proof (shuffle_Permutation rest r) as Hs.
      destruct (Random.shuffle rest r) as [shuffled r0]. simpl in Hs.
      apply Permutation_length in Hs.
      destruct shuffled as [|y shuffled _] using rev_ind.
      * simpl in Hs. simpl. split; [intros _; split; [done|lia]|eauto].
      * rewrite app_nil_l, pop_snoc. simpl. rewrite length_app in Hs. simpl in Hs.
        split; [by intros [e ?]|intros [_ ?]; lia].
  - rewrite pop_snoc. simpl. split; [by intros [e ?]|].
    intros [H _]. by destruct deck.
Qed.

End DeckFacts.

(** ** Protocol codec *)

Section ProtocolFacts.

Import Protocol.

Lemma has_newline_app s1 s2 : has_newline (s1 +:+ s2) = has_newline s1 || has_newline s2.
Proof. induction s1 as [|c s1 IH]; simpl; [done|]. by rewrite IH, orb_assoc. Qed.


Lemma escape_char_no_newline c : has_newline (escape_char c) = false.
Proof. destruct c as [[] [] [] [] [] [] [] []]; reflexivity. Qed.

Lemma escape_no_newline s : has_newline (escape s) = false.
Proof.
  induction s as [|c s IH]; [done|].
  simpl. by rewrite has_newline_app, escape_char_no_newline, IH.
Qed.

(** [json.dumps] never puts a newline inside an object, whatever the
    text: the newline added after it is the only one of its line. *)
Lemma dumps_no_newline key value : has_newline (dumps key value) = false.
Proof.
  unfold dumps, json_string.
  by rewrite !has_newline_app, !escape_no_newline.
Qed.


(** What the game sends through [broadcast], [send_user] and
    [send_input] is in the wire format. *)
Lemma engine_lines_wire connected user message data :
  data ∈ transmissions (broadcast connected message ++ send_user user message
                        ++ send_input user message) →
  wire_line data.
Proof.
  unfold transmissions. rewrite !omap_app. rewrite !elem_of_app.
  unfold broadcast, send_user, send_input. simpl.
  rewrite !list_elem_of_singleton. intros [H|[-> | ->]].
  - exists "message", (Py.join " " message). split; [by apply (bool_decide_unpack _)|].
    induction connected as [|sock connected IH]; simpl in H.
    + by apply elem_of_nil in H.
    + apply elem_of_cons in H as [->|H]; [done|]. by apply IH.
  - exists "message", (Py.join " " message). split; [by apply (bool_decide_unpack _)|done].
  - exists "input", (Py.join " " message). split; [by apply (bool_decide_unpack _)|done].
Qed.

End ProtocolFacts.

(** ** Registration stage *)

Section RegistrationFacts.

Import Protocol Registration.

Implicit Types (timeout stime : Q).

Lemma select_timeout_accepted timeout :
  (0 < timeout)%Q → negb (Qle_bool 0 (timeout * 1000)) = false.
Proof.
  intros H. apply negb_false_iff, Qle_bool_iff. lra.
Qed.

(** The update of line 220 (and 235) under a monotonic clock: what is
    subtracted is [stime - now], which is never positive, so the
    remaining time does not shrink. *)
Lemma remaining_time_grows timeout stime now :
  (0 < timeout)%Q → (stime <= now)%Q →
  (timeout <= timeout - (stime - now))%Q
  ∧ Qle_bool (timeout - (stime - now)) 0 = false.
Proof.
  intros Ht Hn. split; [lra|].
  destruct (Qle_bool _ 0) eqn:E; [|done].
  apply Qle_bool_iff in E. lra.
Qed.

Lemma select_wait_accepted timeout :
  (timeout * 1000 <= select_limit)%Q →
  negb (Qle_bool (timeout * 1000) select_limit) = false.
Proof. intros H. by apply negb_false_iff, Qle_bool_iff. Qed.

Lemma select_wait_refused timeout :
  ¬ (timeout * 1000 <= select_limit)%Q →
  negb (Qle_bool (timeout * 1000) select_limit) = true
  ∧ (select_limit < timeout * 1000)%Q.
Proof.
  intros H. split; [|lra].
  apply negb_true_iff. destruct (Qle_bool _ _) eqn:E; [|done].
  by apply Qle_bool_iff in E.
Qed.

(** With nobody connecting the loop is left in one way only: by the
    [OverflowError] of a [select] whose wait has grown out of range. *)
Lemma connect_loop_idle maxconnections stime obs sock connected timeout log :
  (0 < timeout)%Q →
  Z.of_nat (length connected) ≠ maxconnections →
  Forall (λ o, (stime <= co_now o)%Q ∧ co_ready o = false) obs →
  ∃ outcome timeout',
    connect_loop maxconnections stime obs sock connected timeout log
    = (outcome, timeout', log)
    ∧ (outcome = Pending
       ∨ outcome = Raised Py.OverflowError ∧ (select_limit < timeout' * 1000)%Q)
    ∧ (timeout <= timeout')%Q.
Proof.
  intros Ht Hmax Hobs. revert timeout Ht.
  induction Hobs as [|o obs [Hnow Hready] _ IH]; intros timeout Ht.
  - exists Pending, timeout. cbn [connect_loop]. rewrite bool_decide_eq_false_2 by done.
    split_and!; [done|by left|lra].
  - cbn [connect_loop]. rewrite bool_decide_eq_false_2 by done.
    rewrite select_timeout_accepted by done. rewrite Hready.
    destruct (Qlt_le_dec select_limit (timeout * 1000)) as [Hover|Hfit].
    + destruct (select_wait_refused timeout) as [-> Hlt]; [lra|].
      exists (Raised Py.OverflowError), timeout. split_and!; [done|by right|lra].
    + rewrite select_wait_accepted by done.
      destruct (remaining_time_grows timeout stime (co_now o) Ht Hnow) as [Hle ->].
      destruct (IH (timeout - (stime - co_now o))%Q) as (oc & t' & -> & Hoc & Ht'); [lra|].
      exists oc, t'. split_and!; [done|done|lra].
Qed.

Lemma names_loop_idle cnum all stime obs named connected timeout log :
  (0 < timeout)%Q →
  length named < cnum →
  Forall (λ o, (stime <= no_now o)%Q ∧ no_ready o = []) obs →
  ∃ outcome timeout',
    names_loop cnum all stime obs named connected timeout log
    = (outcome, timeout', log)
    ∧ (outcome = Pending
       ∨ outcome = Raised Py.OverflowError ∧ (select_limit < timeout' * 1000)%Q)
    ∧ (timeout <= timeout')%Q.
Proof.
  intros Ht Hn Hobs. revert timeout Ht.
  induction Hobs as [|o obs [Hnow Hready] _ IH]; intros timeout Ht.
  - exists Pending, timeout. cbn [names_loop]. rewrite bool_decide_eq_true_2 by done.
    split_and!; [done|by left|lra].
  - cbn [names_loop]. rewrite bool_decide_eq_true_2 by done.
    rewrite select_timeout_accepted by done. rewrite Hready.
    rewrite (bool_decide_eq_true_2 ([] = [])) by done. cbn [andb name_ready].
    destruct (Qlt_le_dec select_limit (timeout * 1000)) as [Hover|Hfit].
    + destruct (select_wait_refused timeout) as [-> Hlt]; [lra|].
      exists (Raised Py.OverflowError), timeout. split_and!; [done|by right|lra].
    + rewrite select_wait_accepted by done.
      destruct (remaining_time_grows timeout stime (no_now o) Ht Hnow) as [Hle ->].
      destruct (IH (timeout - (stime - no_now o))%Q) as (oc & t' & -> & Hoc & Ht'); [lra|].
      exists oc, t'. split_and!; [done|done|lra].
Qed.

(** C10, what the code does. With a positive timeout and a clock that
    does not run backwards, neither registration loop ever leaves
    through its deadline test.  As long as nobody connects (nobody sends
    a name) the time the loop believes it has left never shrinks,
    however late the clock reads; after any number of iterations the
    loop is either still running or has died of the [OverflowError]
    that [select] raises once this time, taken a thousandfold, has
    outgrown what [select] can wait.  It never returns, and the error
    for no participants is never raised. *)
Theorem registration_deadlines_never_elapse
    maxconnections timeout stime (cobs : list ConnectObs)
    (connected : list nat) (nobs : list NameObs) :
  (0 < timeout)%Q →
  maxconnections ≠ 0%Z →
  connected ≠ [] →
  Forall (λ o, (stime <= co_now o)%Q ∧ co_ready o = false) cobs →
  Forall (λ o, (stime <= no_now o)%Q ∧ no_ready o = []) nobs →
  ((await_connect maxconnections timeout stime cobs).1.1 = Pending
   ∨ (await_connect maxconnections timeout stime cobs).1.1 = Raised Py.OverflowError
     ∧ (select_limit < (await_connect maxconnections timeout stime cobs).1.2 * 1000)%Q)
  ∧ (timeout <= (await_connect maxconnections timeout stime cobs).1.2)%Q
  ∧ ((await_usernames connected timeout stime nobs).1.1 = Pending
     ∨ (await_usernames connected timeout stime nobs).1.1 = Raised Py.OverflowError
       ∧ (select_limit < (await_usernames connected timeout stime nobs).1.2 * 1000)%Q)
  ∧ (timeout <= (await_usernames connected timeout stime nobs).1.2)%Q.
Proof.
  intros Ht Hmax Hconn Hc Hn.
  destruct (connect_loop_idle maxconnections stime cobs Listening [] timeout [])
    as (oc & tc & Hceq & Hoc & Htc); [done|simpl; lia|done|].
  destruct (names_loop_idle (length connected) connected stime nobs []
              connected timeout []) as (ou & tu & Hueq & Hou & Htu); [done| |done|].
  { destruct connected; [done|simpl; lia]. }
  unfold await_connect, await_usernames. rewrite Hceq, Hueq. cbn [fst snd].
  done.
Qed.

(** A minute of timeout and nobody there.  The first [select] waits
    60000 seconds, and the loop then believes it has 60060 seconds
    left; the second waits 60060000 seconds, after which 60180060
    seconds are left; the third is asked to wait a thousand times
    that, which is more than it can. *)
Lemma registration_deadlines_never_elapse_witness :
  ((await_connect 1 60 0
      [Build_ConnectObs false (0, "", 0) 60000;
       Build_ConnectObs false (0, "", 0) 60120000;
       Build_ConnectObs false (0, "", 0) 60120000]).1.1 = Pending
   ∨ (await_connect 1 60 0
        [Build_ConnectObs false (0, "", 0) 60000;
         Build_ConnectObs false (0, "", 0) 60120000;
         Build_ConnectObs false (0, "", 0) 60120000]).1.1 = Raised Py.OverflowError
     ∧ (select_limit
        < (await_connect 1 60 0
             [Build_ConnectObs false (0, "", 0) 60000;
              Build_ConnectObs false (0, "", 0) 60120000;
              Build_ConnectObs false (0, "", 0) 60120000])%nat.1.2 * 1000)%Q)
  ∧ (60 <= (await_connect 1 60 0
              [Build_ConnectObs false (0, "", 0) 60000;
               Build_ConnectObs false (0, "", 0) 60120000;
               Build_ConnectObs false (0, "", 0) 60120000])%nat.1.2)%Q
  ∧ ((await_usernames [1] 60 0
        [Build_NameObs [] 60000; Build_NameObs [] 60120000]).1.1 = Pending
     ∨ (await_usernames [1] 60 0
          [Build_NameObs [] 60000; Build_NameObs [] 60120000]).1.1
       = Raised Py.OverflowError
       ∧ (select_limit
          < (await_usernames [1] 60 0
               [Build_NameObs [] 60000; Build_NameObs [] 60120000])%nat.1.2 * 1000)%Q)
  ∧ (60 <= (await_usernames [1] 60 0
              [Build_NameObs [] 60000; Build_NameObs [] 60120000])%nat.1.2)%Q.
Proof.
  apply (registration_deadlines_never_elapse 1 60 0).
  - reflexivity.
  - lia.
  - discriminate.
  - repeat constructor; simpl; discriminate.
  - repeat constructor; simpl; discriminate.
Defined.

(** The same run, with the remaining time the loop holds after two
    waits, and its end at the third. *)
Example await_connect_remaining_time :
  let '(outcome, timeout, _) :=
    await_connect 1 60 0
      [Build_ConnectObs false (0, "", 0) 60000;
       Build_ConnectObs false (0, "", 0) 60120000] in
  let '(outcome', timeout', _) :=
    await_connect 1 60 0
      [Build_ConnectObs false (0, "", 0) 60000;
       Build_ConnectObs false (0, "", 0) 60120000;
       Build_ConnectObs false (0, "", 0) 60120000] in
  outcome = Pending ∧ (timeout == 60180060)%Q
  ∧ outcome' = Raised Py.OverflowError ∧ (timeout' == 60180060)%Q.
Proof. vm_compute. split_and!; reflexivity. Qed.

(** A wait that is out of range from the start: ten million seconds of
    timeout end the first iteration. *)
Example await_connect_overflow_at_once :
  (await_connect 1 10000000 0 [Build_ConnectObs false (0, "", 0) 0]).1.1
  = Raised Py.OverflowError.
Proof. vm_compute. reflexivity. Qed.


End RegistrationFacts.

(** ** Turn engine: the decision of one player *)

Section DecisionFacts.

Import Protocol Engine.

Implicit Types (card top : Card) (hand played : list Card) (dec : string).

Lemma legal_on_last card played top :
  last played = Some top → legal_on card played = Some (legal card top).
Proof.
  intros H. unfold legal_on, legal. rewrite H. by destruct (is_wild card).
Qed.

Lemma int_acc_nonneg s acc : (0 ≤ acc)%Z → (0 ≤ Py.int_acc acc s)%Z.
Proof.
  revert acc. induction s as [|c s IH]; intros acc Hacc; [done|].
  simpl. apply IH. unfold Py.digit_of. case_match; simpl; lia.
Qed.

Lemma int_nonneg s : (0 ≤ Py.int s)%Z.
Proof. by apply int_acc_nonneg. Qed.

(** A string of digits is not the word DRAW in any case. *)
Lemma isdigit_not_draw dec : Py.isdigit dec = true → Py.upper dec ≠ "DRAW".
Proof.
  destruct dec as [|c s]; [done|].
  simpl. intros [Hc _]%andb_true_iff [= Hu _].
  destruct c as [[] [] [] [] [] [] [] []]; vm_compute in Hc, Hu;
    (discriminate Hu || discriminate Hc).
Qed.

Lemma isdecimal_isdigit dec : Py.isdecimal dec = true → Py.isdigit dec = true.
Proof.
  destruct dec as [|c s]; [done|].
  unfold Py.isdecimal, Py.isdigit. generalize (String c s). clear.
  intros s. induction s as [|c s IH]; [done|].
  simpl. intros [-> Hs]%andb_true_iff. by rewrite IH.
Qed.

(** The computer player's candidates are the positions of the legal
    cards of its hand, in order. *)
Lemma legal_choices_spec k hand played top :
  last played = Some top →
  ∃ choices,
    legal_choices k hand played = Some choices
    ∧ ∀ j, j ∈ choices ↔ k ≤ j ∧ ∃ c, hand !! (j - k) = Some c ∧ legal c top = true.
Proof.
  intros Htop. revert k. induction hand as [|item hand IH]; intros k.
  - exists []. split; [done|]. intros j. split; [by intros ?%elem_of_nil|].
    by intros (_ & c & ? & _).
  - destruct (IH (S k)) as (rest & Hrest & Hspec).
    cbn [legal_choices]. rewrite (legal_on_last _ _ _ Htop), Hrest. simpl.
    eexists. split; [done|]. intros j.
    assert (Htail : j ∈ rest ↔ k < j ∧ ∃ c, hand !! (j - S k) = Some c ∧ legal c top = true).
    { rewrite Hspec. split; intros [? ?]; (split; [lia|done]). }
    destruct (legal item top) eqn:Hl.
    + rewrite elem_of_cons, Htail. split.
      * intros [->|[Hj (c & Hc & Hlc)]].
        -- split; [lia|]. exists item. by rewrite Nat.sub_diag.
        -- split; [lia|]. exists c. split; [|done].
           by replace (j - k) with (S (j - S k)) by lia.
      * intros [Hj (c & Hc & Hlc)].
        destruct (decide (j = k)) as [->|Hne]; [by left|right].
        split; [lia|]. exists c. split; [|done].
        by replace (j - k) with (S (j - S k)) in Hc by lia.
    + rewrite Htail. split.
      * intros [Hj (c & Hc & Hlc)]. split; [lia|]. exists c. split; [|done].
        by replace (j - k) with (S (j - S k)) by lia.
      * intros [Hj (c & Hc & Hlc)].
        destruct (decide (j = k)) as [->|Hne].
        -- rewrite Nat.sub_diag in Hc. simpl in Hc. congruence.
        -- split; [lia|]. exists c. split; [|done].
           by replace (j - k) with (S (j - S k)) in Hc by lia.
Qed.

End DecisionFacts.

(** ** Turn engine: which plays are accepted *)

Section SelectionFacts.

Import Protocol Engine.

Implicit Types (card top : Card) (hand played : list Card) (dec : string).

(** What [attempt] does with a decimal number: the tests of lines 127
    and 131 are behind it and [int] gives its value. *)
Lemma attempt_number hand played dec :
  Py.isdecimal dec = true →
  attempt hand played dec
  = if (Z.of_nat (length hand) <? Py.int dec - 1)%Z then
      Refused ("That is an invalid index! You only hand "
                 +:+ Py.str (length hand) +:+ " cards!")
    else
      match Py.index_mod hand (Py.int dec - 1) with
      | None => Failed Py.ZeroDivisionError
      | Some ncard =>
          match legal_on ncard played with
          | None => Failed Py.IndexError
          | Some true =>
              match Py.pop_at hand (Py.int dec - 1) with
              | Some (card, hand') => Accepted card hand'
              | None => Failed Py.IndexError
              end
          | Some false =>
              match last played with
              | None => Failed Py.IndexError
              | Some top =>
                  Refused ("You cannot play " +:+ fcard ncard +:+ " on a "
                             +:+ fcard top +:+ " try again!")
              end
          end
      end.
Proof.
  intros Hd. unfold attempt.
  rewrite bool_decide_eq_false_2 by by apply isdigit_not_draw, isdecimal_isdigit.
  rewrite (isdecimal_isdigit _ Hd), Hd. done.
Qed.

(** Digits that are not decimal pass the test of line 131 and make the
    [int] of line 133 raise. *)
Lemma attempt_not_decimal hand played dec :
  Py.isdigit dec = true → Py.isdecimal dec = false →
  attempt hand played dec = Failed Py.ValueError.
Proof.
  intros Hd Hn. unfold attempt.
  rewrite bool_decide_eq_false_2 by by apply isdigit_not_draw.
  by rewrite Hd, Hn.
Qed.

(** The reply made of the one character superscript two. *)
Example attempt_superscript_two :
  Py.isdigit (String (ascii_of_nat 178) "") = true
  ∧ attempt [("5", "RED")] [("5", "GREEN")] (String (ascii_of_nat 178) "")
    = Failed Py.ValueError.
Proof. vm_compute. split; reflexivity. Qed.

(** What [attempt] answers to a number that passes the bound test and
    does not point one past the end. *)
Lemma attempt_in_range hand played top dec :
  last played = Some top →
  hand ≠ [] →
  Py.isdecimal dec = true →
  (Py.int dec - 1 < Z.of_nat (length hand))%Z →
  ∃ ncard,
    Py.index_mod hand (Py.int dec - 1) = Some ncard
    ∧ hand ≡ₚ ncard :: delete (Z.to_nat ((Py.int dec - 1) mod Z.of_nat (length hand))) hand
    ∧ attempt hand played dec
      = if legal ncard top
        then Accepted ncard
               (delete (Z.to_nat ((Py.int dec - 1) mod Z.of_nat (length hand))) hand)
        else Refused ("You cannot play " +:+ fcard ncard +:+ " on a "
                        +:+ fcard top +:+ " try again!").
Proof.
  intros Htop Hne Hd Hlt.
  pose proof (int_nonneg dec) as Hnn.
  assert (0 < length hand) as Hlen by (destruct hand; [done|simpl; lia]).
  destruct (pop_at_in_range hand (Py.int dec - 1)) as (x & Hx & Hpop); [lia|].
  exists x. split; [done|]. split; [by apply pop_at_Permutation in Hpop|].
  rewrite attempt_number by done.
  replace (Z.of_nat (length hand) <? Py.int dec - 1)%Z with false
    by (symmetry; apply Z.ltb_ge; lia).
  rewrite Hx, (legal_on_last _ _ _ Htop), Hpop, Htop.
  by destruct (legal x top).
Qed.

(** A refused reply, whatever the reason, sends its notice and asks
    again, on the hand as it was. *)
Lemma refused_attempt_reprompts sock hand played dec notice replies log :
  attempt hand played dec = Refused notice →
  select_card sock hand played (dec :: replies) log
  = select_card sock hand played replies
      ((log ++ send_input sock ["Select your card: "]) ++ send_user sock [notice]).
Proof. intros H. cbn [select_card]. by rewrite H. Qed.

(** The refusals that come before any card is looked at. *)
Lemma attempt_not_a_number hand played dec :
  Py.upper dec ≠ "DRAW" → Py.isdigit dec = false →
  attempt hand played dec = Refused "That isnt a valid index! Send a number!".
Proof.
  intros Hu Hd. unfold attempt. rewrite bool_decide_eq_false_2 by done. by rewrite Hd.
Qed.

Lemma attempt_too_large hand played dec :
  Py.isdecimal dec = true → (Z.of_nat (length hand) < Py.int dec - 1)%Z →
  attempt hand played dec
  = Refused ("That is an invalid index! You only hand "
               +:+ Py.str (length hand) +:+ " cards!").
Proof.
  intros Hd Hlt. rewrite attempt_number by done.
  by replace (Z.of_nat (length hand) <? Py.int dec - 1)%Z with true
    by (symmetry; apply Z.ltb_lt; lia).
Qed.

(** C3, where the claim fails. A hand of two cards and the reply "5":
    the card at (5 - 1) mod 2 = 0 is legal on the top card, and the
    reply is refused all the same, by the bound test of line 133. *)
Lemma legal_card_refused_as_invalid_index :
  let hand : list Card := [("5", "RED"); ("7", "BLUE")] in
  let played : list Card := [("5", "GREEN")] in
  Py.isdigit "5" = true
  ∧ Py.index_mod hand (Py.int "5" - 1) = Some ("5", "RED")
  ∧ legal ("5", "RED") ("5", "GREEN") = true
  ∧ attempt hand played "5"
    = Refused "That is an invalid index! You only hand 2 cards!".
Proof. vm_compute. split_and!; reflexivity. Qed.

(** C3, as the code has it. A remote player answers with a decimal
    number k, over a discard pile whose top is [top]; the card meant is
    the one at (k - 1) mod len(hand).  When k - 1 is below len(hand)
    that card is taken from the hand exactly when it is legal: a wild,
    or of the top's rank, or of the top's colour.  When k - 1 is above
    len(hand) the reply is refused whatever the card.  Every refused
    reply has its notice sent and the question asked again on the same
    hand.  The computer player's candidates are the positions of its
    legal cards.  (k - 1 = len(hand) is the case of C5.) *)
Theorem play_accepted_iff_legal hand played top dec :
  last played = Some top →
  hand ≠ [] →
  Py.isdecimal dec = true →
  (Py.int dec - 1 ≠ Z.of_nat (length hand))%Z →
  ∃ ncard,
    Py.index_mod hand (Py.int dec - 1) = Some ncard
    ∧ ((∃ hand', attempt hand played dec = Accepted ncard hand' ∧ hand ≡ₚ ncard :: hand')
       ↔ (Py.int dec - 1 < Z.of_nat (length hand))%Z ∧ legal ncard top = true)
    ∧ ((∃ notice, attempt hand played dec = Refused notice)
       ↔ (Z.of_nat (length hand) < Py.int dec - 1)%Z ∨ legal ncard top = false)
    ∧ (∀ dec' notice sock replies log,
         attempt hand played dec' = Refused notice →
         select_card sock hand played (dec' :: replies) log
         = select_card sock hand played replies
             ((log ++ send_input sock ["Select your card: "]) ++ send_user sock [notice]))
    ∧ (∃ choices,
         legal_choices 0 hand played = Some choices
         ∧ ∀ j, j ∈ choices ↔ ∃ c, hand !! j = Some c ∧ legal c top = true).
Proof.
  intros Htop Hne Hd Hidx.
  assert (∃ ncard, Py.index_mod hand (Py.int dec - 1) = Some ncard
            ∧ ((∃ hand', attempt hand played dec = Accepted ncard hand'
                         ∧ hand ≡ₚ ncard :: hand')
               ↔ (Py.int dec - 1 < Z.of_nat (length hand))%Z ∧ legal ncard top = true)
            ∧ ((∃ notice, attempt hand played dec = Refused notice)
               ↔ (Z.of_nat (length hand) < Py.int dec - 1)%Z ∨ legal ncard top = false))
    as (x & Hx & Hacc & Href).
  { destruct (Z.lt_ge_cases (Py.int dec - 1) (Z.of_nat (length hand))) as [Hlt|Hge].
    - destruct (attempt_in_range hand played top dec) as (x & Hx & Hperm & Hatt); [done..|].
      exists x. rewrite Hatt. split_and!; [done| |].
      + destruct (legal x top); split.
        * by intros _.
        * intros _. eauto.
        * by intros (? & ? & _).
        * by intros [_ ?].
      + destruct (legal x top); split.
        * by intros (? & ?).
        * intros [?|?]; [lia|done].
        * intros _. by right.
        * intros _. eauto.
    - destruct (index_mod_is_Some hand (Py.int dec - 1) Hne) as [x Hx].
      exists x. rewrite attempt_too_large by (done || lia). split_and!; [done| |].
      + split; [by intros (? & ? & _)|]. intros [? _]. lia.
      + split; [intros _; left; lia|]. intros _. eauto. }
  exists x. split_and!; [done..| |].
  - intros. by apply refused_attempt_reprompts.
  - destruct (legal_choices_spec 0 hand played top Htop) as (choices & Hc & Hspec).
    exists choices. split; [done|]. intros j. rewrite Hspec, Nat.sub_0_r.
    split; [by intros [_ ?]|]. intros ?. split; [lia|done].
Qed.

Lemma play_accepted_iff_legal_witness :
  ∃ ncard,
    Py.index_mod [("5", "RED"); ("7", "BLUE")] (Py.int "2" - 1) = Some ncard
    ∧ ((∃ hand', attempt [("5", "RED"); ("7", "BLUE")] [("5", "GREEN")] "2"
                 = Accepted ncard hand'
                 ∧ [("5", "RED"); ("7", "BLUE")] ≡ₚ ncard :: hand')
       ↔ (Py.int "2" - 1 < Z.of_nat (length [("5", "RED"); ("7", "BLUE")]))%Z
         ∧ legal ncard ("5", "GREEN") = true)
    ∧ ((∃ notice, attempt [("5", "RED"); ("7", "BLUE")] [("5", "GREEN")] "2"
                  = Refused notice)
       ↔ (Z.of_nat (length [("5", "RED"); ("7", "BLUE")]) < Py.int "2" - 1)%Z
         ∨ legal ncard ("5", "GREEN") = false)
    ∧ (∀ dec' notice sock replies log,
         attempt [("5", "RED"); ("7", "BLUE")] [("5", "GREEN")] dec' = Refused notice →
         select_card sock [("5", "RED"); ("7", "BLUE")] [("5", "GREEN")] (dec' :: replies) log
         = select_card sock [("5", "RED"); ("7", "BLUE")] [("5", "GREEN")] replies
             ((log ++ send_input sock ["Select your card: "]) ++ send_user sock [notice]))
    ∧ (∃ choices,
         legal_choices 0 [("5", "RED"); ("7", "BLUE")] [("5", "GREEN")] = Some choices
         ∧ ∀ j, j ∈ choices
                ↔ ∃ c, [("5", "RED"); ("7", "BLUE")] !! j = Some c
                       ∧ legal c ("5", "GREEN") = true).
Proof.
  apply (play_accepted_iff_legal [("5", "RED"); ("7", "BLUE")] [("5", "GREEN")]
           ("5", "GREEN") "2").
  - reflexivity.
  - discriminate.
  - reflexivity.
  - vm_compute. discriminate.
Defined.

(** The number one past the end passes the bound test of line 133; the
    card looked at is the first of the hand, and if it is legal the
    [pop] that follows raises. *)
Lemma attempt_one_past_end hand played top dec first :
  last played = Some top →
  Py.isdecimal dec = true →
  (Py.int dec - 1 = Z.of_nat (length hand))%Z →
  hand !! 0 = Some first →
  Py.index_mod hand (Py.int dec - 1) = Some first
  ∧ attempt hand played dec
    = if legal first top then Failed Py.IndexError
      else Refused ("You cannot play " +:+ fcard first +:+ " on a "
                      +:+ fcard top +:+ " try again!").
Proof.
  intros Htop Hd Hidx Hfirst.
  assert (0 < length hand) as Hlen by (by apply lookup_lt_Some in Hfirst).
  assert (Hx : Py.index_mod hand (Py.int dec - 1) = Some first).
  { unfold Py.index_mod. rewrite Hidx, Z.mod_same by lia. done. }
  split; [done|]. rewrite attempt_number by done.
  replace (Z.of_nat (length hand) <? Py.int dec - 1)%Z with false
    by (symmetry; apply Z.ltb_ge; lia).
  rewrite Hx, (legal_on_last _ _ _ Htop), Htop.
  rewrite pop_at_out_of_range by lia.
  by destruct (legal first top).
Qed.

(** C5, what the code does. A hand of two cards whose first card is
    legal, and the reply "3": the bound test lets 3 - 1 = 2 through, the
    card looked at is the one at (3 - 1) mod 2 = 0, and [hand.pop(2)]
    raises [IndexError] instead of popping position 0; the game ends
    there. *)
Theorem one_past_end_index_raises :
  let hand : list Card := [("5", "RED"); ("7", "BLUE")] in
  let played : list Card := [("5", "GREEN")] in
  let t := mkTable [("1", "RED"); ("2", "RED")] played [(Human 7 "Henry", hand)] in
  let w := mkWorld (λ s, if bool_decide (s = 7) then ["3"] else []) [] [] in
  Py.isdigit "3" = true
  ∧ (Z.of_nat (length hand) <? Py.int "3" - 1)%Z = false
  ∧ Py.index_mod hand (Py.int "3" - 1) = Some ("5", "RED")
  ∧ legal ("5", "RED") ("5", "GREEN") = true
  ∧ Py.pop_at hand ((Py.int "3" - 1) mod 2) = Some (("5", "RED"), [("7", "BLUE")])
  ∧ Py.pop_at hand (Py.int "3" - 1) = None
  ∧ attempt hand played "3" = Failed Py.IndexError
  ∧ (∃ w', run [7] 1 0 false t w = Aborted Py.IndexError w').
Proof. vm_compute. split_and!; try reflexivity. eexists. reflexivity. Qed.

End SelectionFacts.

(** ** Turn engine: wins, wild cards and skips *)

Section TurnFacts.

Import Protocol Engine.

Implicit Types (card top : Card) (hand played : list Card) (t : Table) (w : World).

(** However its hand goes, the turn of a computer player does not end
    the game: lines 160-172 have no counterpart of the test of line 142. *)
Lemma ai_turn_never_returns connected i skipped name hand t w w' :
  turn connected i skipped (AI name) hand t w ≠ Return w'.
Proof.
  unfold turn. destruct skipped; [done|].
  destruct (ai_decide connected name hand (played t) w) as [w1|c h w1|w1|e w1|w1] eqn:Hd.
  - unfold draw_one. by repeat case_match.
  - unfold apply_effects. by repeat case_match.
  - exfalso. revert Hd. unfold ai_decide. by repeat case_match.
  - done.
  - done.
Qed.

(** A remote player's turn ends the game exactly when the card it has
    just put down was the last of its hand. *)
Lemma human_turn_returns_iff connected i sock name hand t w top :
  last (played t) = Some top →
  (∃ w', turn connected i false (Human sock name) hand t w = Return w')
  ↔ ∃ card,
      (select_card sock hand (played t) (inbox w sock)
         (log w
          ++ broadcast connected
               ["Its " +:+ name +:+ "'s turn! Current card is " +:+ fcard top]
          ++ send_user sock ["Its your turn!"; fhand hand])).1.1
      = Play card [].
Proof.
  intros Htop. unfold turn, human_decide. rewrite Htop.
  destruct (select_card _ _ _ _ _) as [[d replies] log1]. cbn [fst].
  split.
  - intros [w' H]. destruct d as [|card hand'| |].
    + unfold draw_one in H. by repeat case_match.
    + destruct hand'; [by exists card|].
      exfalso. revert H. unfold apply_effects.
      destruct (is_wild card); [destruct (select_color _ _ _) as [[[col|] ?] ?]|];
        by repeat case_match.
    + done.
    + done.
  - intros [card ->]. eauto.
Qed.

(** C1, what the code does. A computer player holding one card, which
    is legal: its turn puts the card down and goes on with an empty hand;
    nothing is returned, no winner is announced, and on its next turn the
    player, with no card to choose from, draws. *)
Theorem ai_empty_hand_plays_on :
  let t := mkTable [("1", "RED"); ("2", "RED"); ("3", "RED")] [("5", "BLUE")]
             [(AI "Player 0", [("5", "RED")])] in
  let w := mkWorld (λ _, []) [] [] in
  match turn [] 0 false (AI "Player 0") [("5", "RED")] t w with
  | Continue skipped t' w' =>
      t' = mkTable [("1", "RED"); ("2", "RED"); ("3", "RED")]
             [("5", "BLUE"); ("5", "RED")] [(AI "Player 0", [])]
      ∧ log w' = [Print "It is Player 0's turn!"; Print "Player 0 played 5 RED"]
  | _ => False
  end
  ∧ match run [] 3 0 false t w with
    | Unfinished i skipped t' w' =>
        play_order t' = [(AI "Player 0", [("3", "RED")])]
        ∧ log w' = [Print "It is Player 0's turn!"; Print "Player 0 played 5 RED";
                    Print "It is Player 0's turn!"; Print "Player 0 drew a card"]
    | _ => False
    end.
Proof. vm_compute. split_and!; reflexivity. Qed.

(** C2, what the code does. A remote player puts down WILD4 and answers
    "red": line 156 makes the card ("WILD", "RED"), so the rank on the
    discard pile is WILD, [ndraw] stays 0 and the next player draws
    nothing. *)
Theorem human_wild4_played_as_wild :
  let hand : list Card := [("WILD4", "ALL"); ("3", "RED")] in
  let t := mkTable [("1", "RED"); ("2", "RED"); ("3", "RED"); ("4", "RED"); ("6", "RED")]
             [("5", "BLUE")]
             [(Human 7 "Henry", hand); (AI "Player 0", [("5", "RED")])] in
  let w := mkWorld (λ s, if bool_decide (s = 7) then ["1"; "red"] else []) [] [] in
  match turn [7] 0 false (Human 7 "Henry") hand t w with
  | Continue skipped t' w' =>
      t' = mkTable [("1", "RED"); ("2", "RED"); ("3", "RED"); ("4", "RED"); ("6", "RED")]
             [("5", "BLUE"); ("WILD", "RED")]
             [(Human 7 "Henry", [("3", "RED")]); (AI "Player 0", [("5", "RED")])]
      ∧ last (log w') = Some (Send 7 (dumps "message" "Henry played WILD RED" +:+ newline))
  | _ => False
  end
  ∧ ndraw_of ("WILD", "RED") = 0
  ∧ ndraw_of ("WILD4", "RED") = 4.
Proof. vm_compute. split_and!; reflexivity. Qed.

(** The sibling path: a computer player putting down WILD4 keeps the
    rank, and the next player draws four cards. *)
Example ai_wild4_keeps_rank :
  let hand : list Card := [("WILD4", "ALL"); ("3", "RED")] in
  let t := mkTable [("1", "RED"); ("2", "RED"); ("3", "RED"); ("4", "RED"); ("6", "RED")]
             [("5", "BLUE")]
             [(AI "Player 0", hand); (AI "Player 1", [("5", "RED")])] in
  let w := mkWorld (λ _, []) [] [] in
  match turn [] 0 false (AI "Player 0") hand t w with
  | Continue skipped t' w' =>
      t' = mkTable [("1", "RED")]
             [("5", "BLUE"); ("WILD4", "RED")]
             [(AI "Player 0", [("3", "RED")]);
              (AI "Player 1", [("5", "RED"); ("6", "RED"); ("4", "RED"); ("3", "RED");
                               ("2", "RED")])]
  | _ => False
  end.
Proof. vm_compute. reflexivity. Qed.

(** A skip put down by a player that is not the last of the play order
    is served on the next pass: the next player is passed over, the
    notice is broadcast, no decision is asked. *)
Lemma skip_bypasses_next connected fuel i who hand next_who next_hand t t' w w' :
  play_order t !! i = Some (who, hand) →
  turn connected i false who hand t w = Continue true t' w' →
  play_order t' !! S i = Some (next_who, next_hand) →
  run connected (S (S fuel)) i false t w
  = run connected fuel (S (S i)) false t'
      (say (broadcast connected [player_name next_who; "was skipped"]) w').
Proof.
  intros Hi Ht Hn. cbn [run]. rewrite Hi, Ht.
  destruct fuel; cbn [run]; by rewrite Hn.
Qed.

(** C7, what the code does. Two computer players; the second, last in
    the play order, puts down SKIP.  The [for] loop is over, the [while]
    body starts again with [skipped = False], and the first player is
    not passed over: it takes a full turn and plays. *)
Theorem skip_by_last_player_is_lost :
  let t := mkTable [("1", "RED"); ("2", "RED"); ("3", "RED")] [("9", "RED")]
             [(AI "Player 0", [("1", "BLUE"); ("4", "RED")]);
              (AI "Player 1", [("SKIP", "RED"); ("2", "BLUE")])] in
  let w := mkWorld (λ _, []) [] [] in
  match turn [] 1 false (AI "Player 1") [("SKIP", "RED"); ("2", "BLUE")] t w with
  | Continue skipped _ _ => skipped = true
  | _ => False
  end
  ∧ match run [] 3 1 false t w with
    | Unfinished i skipped t' w' =>
        i = 1 ∧ skipped = false
        ∧ play_order t' = [(AI "Player 0", [("1", "BLUE")]); (AI "Player 1", [("2", "BLUE")])]
        ∧ played t' = [("9", "RED"); ("SKIP", "RED"); ("4", "RED")]
        ∧ log w' = [Print "It is Player 1's turn!"; Print "Player 1 played SKIP RED";
                    Print "It is Player 0's turn!"; Print "Player 0 played 4 RED"]
    | _ => False
    end.
Proof. vm_compute. split_and!; reflexivity. Qed.

(** The same skip one seat earlier is served. *)
Example skip_by_first_player_is_served :
  let t := mkTable [("1", "RED"); ("2", "RED"); ("3", "RED")] [("9", "RED")]
             [(AI "Player 0", [("SKIP", "RED"); ("2", "BLUE")]);
              (AI "Player 1", [("1", "BLUE"); ("4", "RED")])] in
  let w := mkWorld (λ _, []) [] [] in
  match run [] 2 0 false t w with
  | Unfinished i skipped t' w' =>
      i = 2 ∧ skipped = false
      ∧ play_order t' = [(AI "Player 0", [("2", "BLUE")]);
                         (AI "Player 1", [("1", "BLUE"); ("4", "RED")])]
      ∧ log w' = [Print "It is Player 0's turn!"; Print "Player 0 played SKIP RED";
                  Print "Player 1 was skipped"]
  | _ => False
  end.
Proof. vm_compute. split_and!; reflexivity. Qed.

End TurnFacts.

(** ** Turn engine: where the cards are *)

Section ConservationFacts.

Import Protocol Engine.

Implicit Types (card : Card) (hand deck played : list Card) (t : Table) (w : World).
Implicit Types (order : list (Player * list Card)).

Lemma draw_card_conserves deck played r c deck' played' r' :
  draw_card deck played r = (inr (c, deck', played'), r') →
  c :: deck' ++ played' ≡ₚ deck ++ played.
Proof.
  unfold draw_card.
  destruct (Py.pop deck) as [[c0 d0]|] eqn:Hd.
  { intros [= -> -> -> _]. apply pop_Some in Hd as ->. solve_Permutation. }
  apply pop_None in Hd as ->.
  destruct (Py.pop played) as [[top rest]|] eqn:Hp; [|done].
  apply pop_Some in Hp as ->.
  pose proof (shuffle_Permutation rest r) as Hs.
  destruct (Random.shuffle rest r) as [shuffled r0]. simpl in Hs.
  destruct (Py.pop ([] ++ shuffled)) as [[c0 d0]|] eqn:Hd; [|done].
  intros [= -> -> <- _]. apply pop_Some in Hd. simpl in Hd. subst shuffled.
  rewrite <- Hs. solve_Permutation.
Qed.

Lemma draw_n_conserves n deck played r drawn deck' played' r' :
  draw_n n deck played r = (inr (drawn, deck', played'), r') →
  drawn ++ deck' ++ played' ≡ₚ deck ++ played.
Proof.
  revert deck played r drawn deck' played' r'.
  induction n as [|n IH]; intros deck played r drawn deck' played' r'.
  { by intros [= <- <- <- _]. }
  cbn [draw_n].
  destruct (draw_card deck played r) as [[e|[[c d1] p1]] r1] eqn:H1; [done|].
  destruct (draw_n n d1 p1 r1) as [[e|[[cs d2] p2]] r2] eqn:H2; [done|].
  intros [= <- <- <- _].
  apply draw_card_conserves in H1. apply IH in H2.
  rewrite <- H1. simpl. by rewrite H2.
Qed.

Lemma draw_n_length n deck played r drawn deck' played' r' :
  draw_n n deck played r = (inr (drawn, deck', played'), r') → length drawn = n.
Proof.
  revert deck played r drawn deck' played' r'.
  induction n as [|n IH]; intros deck played r drawn deck' played' r'.
  { by intros [= <- _]. }
  cbn [draw_n].
  destruct (draw_card deck played r) as [[e|[[c d1] p1]] r1]; [done|].
  destruct (draw_n n d1 p1 r1) as [[e|[[cs d2] p2]] r2] eqn:H2; [done|].
  intros [= <- _]. simpl. f_equal. by eapply IH.
Qed.

(** The hands of a play order around the entry at position [i]. *)
Lemma hands_at order i who hand :
  order !! i = Some (who, hand) →
  ∃ others,
    concat order.*2 ≡ₚ hand ++ others
    ∧ ∀ who' hand', concat (<[i:=(who', hand')]> order).*2 ≡ₚ hand' ++ others.
Proof.
  intros Hi.
  exists (concat (take i order).*2 ++ concat (drop (S i) order).*2). split.
  - rewrite <- (take_drop_middle _ _ _ Hi) at 1.
    rewrite fmap_app, concat_app. simpl. solve_Permutation.
  - intros who' hand'. rewrite insert_take_drop by by eapply lookup_lt_Some.
    rewrite fmap_app, concat_app. simpl. solve_Permutation.
Qed.

Lemma hands_reverse order : concat (reverse order).*2 ≡ₚ concat order.*2.
Proof.
  induction order as [|[who hand] order IH]; [done|].
  rewrite reverse_cons, fmap_app, concat_app, IH. simpl. solve_Permutation.
Qed.

Lemma attempt_Accepted hand played dec card hand' :
  attempt hand played dec = Accepted card hand' → hand ≡ₚ card :: hand'.
Proof.
  unfold attempt. repeat case_match; try done.
  intros [= <- <-]. by eapply pop_at_Permutation.
Qed.

Lemma select_card_Play sock hand played replies log card hand' replies' log' :
  select_card sock hand played replies log = (Play card hand', replies', log') →
  hand ≡ₚ card :: hand'.
Proof.
  revert log. induction replies as [|dec replies IH]; intros log; [done|].
  cbn [select_card].
  destruct (attempt hand played dec) as [|c h|notice|e] eqn:Ha; try done.
  - intros [= <- <- _ _]. by eapply attempt_Accepted.
  - apply IH.
Qed.

Lemma human_decide_played connected sock name hand played w card hand' w' :
  human_decide connected sock name hand played w = DPlayed card hand' w' →
  put_down hand card hand'.
Proof.
  unfold human_decide. destruct (last played) as [top|]; [|done].
  destruct (select_card _ _ _ _ _) as [[d replies] log1] eqn:Hs.
  destruct d as [|card0 h| |]; try done.
  apply select_card_Play in Hs.
  destruct h as [|c h]; [done|].
  destruct (is_wild card0) eqn:Hw.
  - destruct (select_color _ _ _) as [[[col|] ?] ?]; [|done].
    intros [= <- <- _]. exists card0. split; [done|]. by right.
  - intros [= <- <- _]. exists card0. split; [done|]. by left.
Qed.

Lemma ai_decide_played connected name hand played w card hand' w' :
  ai_decide connected name hand played w = DPlayed card hand' w' →
  put_down hand card hand'.
Proof.
  unfold ai_decide. destruct (Random.randint _ _ _) as [? r1].
  destruct (legal_choices 0 hand played) as [[|j0 choices]|]; try done.
  destruct (Random.choice _ r1) as [j r2].
  destruct (j ≫= _) as [[card0 h]|] eqn:Hpop; [|done].
  assert (hand ≡ₚ card0 :: h) as Hperm.
  { destruct j as [j|]; [|done]. simpl in Hpop. by eapply pop_at_Permutation. }
  destruct (is_wild card0) eqn:Hw.
  - destruct (Random.choice colors r2) as [[fallback|] r3]; [|done].
    destruct (max_count _ _) as [col ?].
    intros [= <- <- _]. exists card0. split; [done|]. right. split; [done|].
    apply Hw.
  - intros [= <- <- _]. exists card0. split; [done|]. by left.
Qed.

(** A card that reaches the pile without being wild is the card that
    left the hand. *)
Lemma put_down_not_wild hand card hand' :
  put_down hand card hand' → is_wild card = false → hand ≡ₚ card :: hand'.
Proof.
  intros (card0 & Hperm & [->|[_ Hw]]) Hn; [done|congruence].
Qed.

Lemma human_decide_played_in_colour connected sock name hand played w card hand' w' :
  plain_wilds (Human sock name) hand played w →
  human_decide connected sock name hand played w = DPlayed card hand' w' →
  put_down_in_colour hand card hand'.
Proof.
  intros Hplain. unfold human_decide. destruct (last played) as [top|]; [|done].
  destruct (select_card _ _ _ _ _) as [[d replies] log1] eqn:Hs.
  destruct d as [|card0 h| |]; try done.
  pose proof (Hplain _ _ _ _ _ Hs) as Hrank.
  apply select_card_Play in Hs.
  destruct h as [|c h]; [done|].
  destruct (is_wild card0) eqn:Hw.
  - destruct (select_color _ _ _) as [[[col|] ?] ?]; [|done].
    intros [= <- <- _]. exists card0. split; [done|]. right. split; [done|].
    exists col. by rewrite Hrank.
  - intros [= <- <- _]. exists card0. split; [done|]. by left.
Qed.

Lemma ai_decide_played_in_colour connected name hand played w card hand' w' :
  ai_decide connected name hand played w = DPlayed card hand' w' →
  put_down_in_colour hand card hand'.
Proof.
  unfold ai_decide. destruct (Random.randint _ _ _) as [? r1].
  destruct (legal_choices 0 hand played) as [[|j0 choices]|]; try done.
  destruct (Random.choice _ r1) as [j r2].
  destruct (j ≫= _) as [[card0 h]|] eqn:Hpop; [|done].
  assert (hand ≡ₚ card0 :: h) as Hperm.
  { destruct j as [j|]; [|done]. simpl in Hpop. by eapply pop_at_Permutation. }
  destruct (is_wild card0) eqn:Hw.
  - destruct (Random.choice colors r2) as [[fallback|] r3]; [|done].
    destruct (max_count _ _) as [col ?].
    intros [= <- <- _]. exists card0. split; [done|]. right. split; [done|].
    by exists col.
  - intros [= <- <- _]. exists card0. split; [done|]. by left.
Qed.

End ConservationFacts.

Section GameFacts.

Import Protocol Engine.

Implicit Types (card : Card) (hand deck played : list Card) (t : Table) (w : World).
Implicit Types (order : list (Player * list Card)).

(** A play moves one card: [card0] leaves the hand, [card] reaches the
    discard pile, and the draws the card forces on the next player,
    with the reshuffle they may need, move the other cards about
    without changing them. *)
Lemma apply_effects_moves_one_card connected i who card0 card hand hand' t w skipped t' w' :
  play_order t !! i = Some (who, hand) →
  hand ≡ₚ card0 :: hand' →
  apply_effects connected i who card hand' t w = Continue skipped t' w' →
  ∃ rest, all_cards t ≡ₚ card0 :: rest ∧ all_cards t' ≡ₚ card :: rest.
Proof.
  intros Hi Hperm.
  destruct (hands_at _ _ _ _ Hi) as (others & Hbefore & Hafter).
  set (rest := deck t ++ played t ++ hand' ++ others).
  assert (all_cards t ≡ₚ card0 :: rest) as Ht.
  { unfold all_cards, rest. rewrite Hbefore, Hperm. solve_Permutation. }
  unfold apply_effects.
  set (order2 := if bool_decide (card.1 = "REVERSE")
                 then reverse (<[i:=(who, hand')]> (play_order t))
                 else <[i:=(who, hand')]> (play_order t)).
  assert (concat order2.*2 ≡ₚ hand' ++ others) as H2.
  { unfold order2. case_bool_decide; [rewrite hands_reverse|]; apply Hafter. }
  intros Heff. exists rest. split; [done|].
  destruct (ndraw_of card =? 0).
  { injection Heff as _ <- _. unfold all_cards, rest. cbn [deck played play_order].
    rewrite H2. solve_Permutation. }
  destruct (draw_n _ _ _ _) as [[e|[[drawn d1] p1]] r1] eqn:Hdraw; [done|].
  destruct (order2 !! _) as [[name hand_next]|] eqn:Hnext; [|done].
  injection Heff as _ <- _. apply draw_n_conserves in Hdraw.
  destruct (hands_at _ _ _ _ Hnext) as (others2 & Hb2 & Ha2).
  unfold all_cards, rest. cbn [deck played play_order].
  rewrite Ha2.
  trans ((drawn ++ d1 ++ p1) ++ hand_next ++ others2); [solve_Permutation|].
  rewrite Hdraw, <- Hb2, H2. solve_Permutation.
Qed.

Lemma apply_effects_conserves connected i who card hand hand' t w skipped t' w' :
  play_order t !! i = Some (who, hand) →
  put_down hand card hand' →
  apply_effects connected i who card hand' t w = Continue skipped t' w' →
  same_up_to_wild (all_cards t) (all_cards t').
Proof.
  intros Hi (card0 & Hperm & Hcard) Heff.
  destruct (apply_effects_moves_one_card _ _ _ _ _ _ _ _ _ _ _ _ Hi Hperm Heff)
    as (rest & Ht & Ht').
  destruct Hcard as [->|[Hw0 Hw]].
  - left. by rewrite Ht, Ht'.
  - right. by exists card0, card, rest.
Qed.

Lemma apply_effects_conserves_in_colour connected i who card hand hand' t w skipped t' w' :
  play_order t !! i = Some (who, hand) →
  put_down_in_colour hand card hand' →
  apply_effects connected i who card hand' t w = Continue skipped t' w' →
  same_up_to_colour (all_cards t) (all_cards t').
Proof.
  intros Hi (card0 & Hperm & Hcard) Heff.
  destruct (apply_effects_moves_one_card _ _ _ _ _ _ _ _ _ _ _ _ Hi Hperm Heff)
    as (rest & Ht & Ht').
  destruct Hcard as [->|[Hw0 [colour ->]]].
  - left. by rewrite Ht, Ht'.
  - right. by exists card0, colour, rest.
Qed.

Lemma draw_one_conserves connected i who hand t w skipped t' w' :
  play_order t !! i = Some (who, hand) →
  draw_one connected i who hand t w = Continue skipped t' w' →
  all_cards t' ≡ₚ all_cards t.
Proof.
  intros Hi. unfold draw_one.
  destruct (draw_card _ _ _) as [[e|[[c d1] p1]] r1] eqn:Hdraw; [done|].
  intros [= _ <- _]. apply draw_card_conserves in Hdraw.
  destruct (hands_at _ _ _ _ Hi) as (others & Hbefore & Hafter).
  unfold all_cards. cbn [deck played play_order].
  rewrite Hafter, Hbefore.
  trans ((c :: d1 ++ p1) ++ hand ++ others); [solve_Permutation|].
  rewrite Hdraw. solve_Permutation.
Qed.

(** One pass through the loop body leaves the cards of the table what
    they were, but for the wild card that the pass may have put down. *)
Lemma turn_conserves connected i skipped who hand t w skipped' t' w' :
  play_order t !! i = Some (who, hand) →
  turn connected i skipped who hand t w = Continue skipped' t' w' →
  same_up_to_wild (all_cards t) (all_cards t').
Proof.
  intros Hi. unfold turn. destruct skipped.
  { intros [= _ <- _]. by left. }
  destruct who as [sock name|name].
  - destruct (human_decide _ _ _ _ _ _) as [w1|c h w1|w1|e w1|w1] eqn:Hd; try done.
    + intros H. left. by eapply draw_one_conserves.
    + apply human_decide_played in Hd. by eapply apply_effects_conserves.
  - destruct (ai_decide _ _ _ _ _) as [w1|c h w1|w1|e w1|w1] eqn:Hd; try done.
    + intros H. left. by eapply draw_one_conserves.
    + apply ai_decide_played in Hd. by eapply apply_effects_conserves.
Qed.

Lemma plain_wild c : is_wild c = true → plain c = ("WILD", "ALL").
Proof. intros H. unfold plain. by rewrite H. Qed.

Lemma same_up_to_wild_plain l l' :
  same_up_to_wild l l' → plain <$> l' ≡ₚ plain <$> l.
Proof.
  intros [H|(c & c' & rest & Hc & Hc' & Hl & Hl')]; [by rewrite H|].
  rewrite Hl, Hl'. simpl. by rewrite !plain_wild.
Qed.

Lemma run_conserves connected fuel i skipped t w i' skipped' t' w' :
  run connected fuel i skipped t w = Unfinished i' skipped' t' w' →
  plain <$> all_cards t' ≡ₚ plain <$> all_cards t.
Proof.
  revert i skipped t w. induction fuel as [|fuel IH]; intros i skipped t w.
  { by intros [= _ _ <- _]. }
  cbn [run]. destruct (play_order t !! i) as [[who hand]|] eqn:Hi; [|apply IH].
  destruct (turn _ _ _ _ _ _ _) as [sk t1 w1|w1|e w1|w1] eqn:Ht; try done.
  intros H. apply IH in H. rewrite H.
  eapply same_up_to_wild_plain, turn_conserves; eauto.
Qed.

Lemma pop_n_conserves n deck hand deck' :
  pop_n n deck = Some (hand, deck') → deck ≡ₚ hand ++ deck'.
Proof.
  revert deck hand deck'. induction n as [|n IH]; intros deck hand deck'.
  { by intros [= <- <-]. }
  cbn [pop_n]. destruct (Py.pop deck) as [[c d1]|] eqn:Hp; [|done].
  destruct (pop_n n d1) as [[h d2]|] eqn:Hn; [|done].
  intros [= <- <-]. apply pop_Some in Hp as ->. apply IH in Hn.
  rewrite Hn. solve_Permutation.
Qed.

Lemma deal_conserves players deck entries deck' :
  deal players deck = Some (entries, deck') → deck ≡ₚ concat entries.*2 ++ deck'.
Proof.
  revert deck entries deck'.
  induction players as [|p players IH]; intros deck entries deck'.
  { by intros [= <- <-]. }
  cbn [deal]. unfold generate_hand.
  destruct (pop_n 7 deck) as [[hand d1]|] eqn:Hh; [|done].
  destruct (deal players d1) as [[es d2]|] eqn:Hd; [|done].
  intros [= <- <-]. apply pop_n_conserves in Hh. apply IH in Hd.
  rewrite Hh, Hd. simpl. solve_Permutation.
Qed.

(** The deal: what [start] lays out before the first turn is the deck it
    generated, card for card. *)
Lemma setup_conserves connected n_ai_players w t w' :
  setup connected n_ai_players w = inr (t, w') → all_cards t ≡ₚ cards.
Proof.
  unfold setup.
  destruct (n_ai_players <? 0)%Z; [done|].
  destruct (_ =? 0)%Z; [done|].
  destruct (_ <? 7)%Z; [done|].
  pose proof (generate_deck_Permutation (rng w)) as Hg.
  destruct (generate_deck (rng w)) as [deck0 r]. simpl in Hg.
  destruct (deal _ deck0) as [[ai_hands deck1]|] eqn:Hai; [|done].
  destruct (deal _ deck1) as [[humans deck2]|] eqn:Hhu; [|done].
  destruct (Py.pop deck2) as [[sc deck3]|] eqn:Hsc; [|done].
  intros [= <- _].
  apply deal_conserves in Hai, Hhu. apply pop_Some in Hsc as ->.
  unfold all_cards. cbn [deck played play_order].
  rewrite <- Hg, Hai, Hhu, fmap_app, concat_app. solve_Permutation.
Qed.

Lemma filter_plain (l : list Card) :
  filter (λ c, is_wild c = false) (plain <$> l) = filter (λ c, is_wild c = false) l.
Proof.
  induction l as [|c l IH]; [done|].
  rewrite fmap_cons. unfold plain at 1. destruct (is_wild c) eqn:Hw.
  - rewrite !filter_cons_False; [done|by rewrite Hw|done].
  - rewrite !filter_cons_True by done. by rewrite IH.
Qed.

(** C6, as stated, fails: a computer player puts down a wild card, the
    card reaches the discard pile in the colour chosen for it, and the
    cards of the table are no longer the cards they were. *)
Lemma recolor_changes_the_cards :
  let hand : list Card := [("WILD", "ALL"); ("3", "RED")] in
  let t := mkTable [("1", "RED")] [("5", "BLUE")] [(AI "Player 0", hand)] in
  let w := mkWorld (λ _, []) [] [] in
  match turn [] 0 false (AI "Player 0") hand t w with
  | Continue _ t' _ =>
      t' = mkTable [("1", "RED")] [("5", "BLUE"); ("WILD", "RED")]
             [(AI "Player 0", [("3", "RED")])]
      ∧ ¬ all_cards t' ≡ₚ all_cards t
  | _ => False
  end.
Proof.
  vm_compute. split; [reflexivity|].
  intros H. apply (count_card_Permutation ("WILD", "ALL")) in H.
  vm_compute in H. discriminate H.
Qed.

(** The play of a card that is not wild, by a remote player or by a
    computer player, with the draws it forces on the next player and
    the reshuffle they may need: the cards of the table are exactly
    what they were. *)
Lemma play_of_a_card_not_wild_conserves connected i who hand t w card hand' w1
    skipped' t' w' :
  play_order t !! i = Some (who, hand) →
  match who with
  | Human sock name => human_decide connected sock name hand (played t) w
  | AI name => ai_decide connected name hand (played t) w
  end = DPlayed card hand' w1 →
  is_wild card = false →
  apply_effects connected i who card hand' t w1 = Continue skipped' t' w' →
  all_cards t' ≡ₚ all_cards t.
Proof.
  intros Hi Hd Hn Heff.
  assert (put_down hand card hand') as Hput.
  { destruct who; [by eapply human_decide_played|by eapply ai_decide_played]. }
  pose proof (put_down_not_wild _ _ _ Hput Hn) as Hperm.
  destruct (apply_effects_moves_one_card _ _ _ _ _ _ _ _ _ _ _ _ Hi Hperm Heff)
    as (rest & Ht & Ht').
  by rewrite Ht, Ht'.
Qed.

(** One pass through the loop body: a skip, a draw with the reshuffle
    it may need, or a play with the draws it forces.  The cards of the
    table are exactly what they were, unless the pass put down a wild
    card, which is then on the table in the colour chosen for it, and
    nothing else has changed. *)
Lemma turn_conserves_in_colour connected i (skipped : bool) who hand t w skipped' t' w' :
  play_order t !! i = Some (who, hand) →
  (if skipped then True else plain_wilds who hand (played t) w) →
  turn connected i skipped who hand t w = Continue skipped' t' w' →
  same_up_to_colour (all_cards t) (all_cards t').
Proof.
  intros Hi Hplain. unfold turn. destruct skipped.
  { intros [= _ <- _]. by left. }
  destruct who as [sock name|name].
  - destruct (human_decide _ _ _ _ _ _) as [w1|c h w1|w1|e w1|w1] eqn:Hd; try done.
    + intros H. left. by eapply draw_one_conserves.
    + apply human_decide_played_in_colour in Hd; [|done].
      by eapply apply_effects_conserves_in_colour.
  - destruct (ai_decide _ _ _ _ _) as [w1|c h w1|w1|e w1|w1] eqn:Hd; try done.
    + intros H. left. by eapply draw_one_conserves.
    + apply ai_decide_played_in_colour in Hd.
      by eapply apply_effects_conserves_in_colour.
Qed.

Lemma uncoloured_in_colour c colour :
  is_wild c = true → uncoloured (c.1, colour) = uncoloured c.
Proof.
  intros Hw. unfold uncoloured.
  change (is_wild (c.1, colour)) with (is_wild c). by rewrite Hw.
Qed.

Lemma same_up_to_colour_uncoloured l l' :
  same_up_to_colour l l' → uncoloured <$> l' ≡ₚ uncoloured <$> l.
Proof.
  intros [H|(c & colour & rest & Hc & Hl & Hl')]; [by rewrite H|].
  rewrite Hl, Hl'. simpl. by rewrite uncoloured_in_colour.
Qed.

Lemma run_conserves_in_colour connected fuel i skipped t w i' skipped' t' w' :
  run connected fuel i skipped t w = Unfinished i' skipped' t' w' →
  run_plain_wilds connected fuel i skipped t w →
  uncoloured <$> all_cards t' ≡ₚ uncoloured <$> all_cards t.
Proof.
  revert i skipped t w. induction fuel as [|fuel IH]; intros i skipped t w.
  { by intros [= _ _ <- _]. }
  cbn [run run_plain_wilds].
  destruct (play_order t !! i) as [[who hand]|] eqn:Hi; [|apply IH].
  destruct (turn _ _ _ _ _ _ _) as [sk t1 w1|w1|e w1|w1] eqn:Ht; try done.
  intros H [Hplain Hrest]. rewrite (IH _ _ _ _ H Hrest).
  eapply same_up_to_colour_uncoloured, turn_conserves_in_colour; eauto.
Qed.

Lemma uncoloured_cards : uncoloured <$> cards = cards.
Proof. vm_compute. reflexivity. Qed.

(** Whatever the players put down, the table holds 108 cards all
    through a game, and the cards that are not wild are those of the
    initial deck. *)
Lemma table_holds_108_cards connected n_ai_players fuel w i skipped t w' :
  start connected n_ai_players fuel w = Unfinished i skipped t w' →
  length (all_cards t) = 108
  ∧ filter (λ c, is_wild c = false) (all_cards t)
    ≡ₚ filter (λ c, is_wild c = false) cards.
Proof.
  unfold start. destruct (setup connected n_ai_players w) as [e|[t0 w0]] eqn:Hs; [done|].
  intros Hrun. apply run_conserves in Hrun. apply setup_conserves in Hs.
  assert (plain <$> all_cards t ≡ₚ plain <$> cards) as H by by rewrite Hrun, Hs.
  split.
  - apply Permutation_length in H. by rewrite !length_fmap in H.
  - by rewrite <- (filter_plain (all_cards t)), <- (filter_plain cards), H.
Qed.

(** C6, amended. A game in which no remote player puts down a WILD4
    (the rank a remote player's wild card loses is the matter of C2).
    In every state the game passes through, the cards of deck, discard
    pile and hands are the 108 cards of the initial deck up to the
    colour of the wild cards: with the colour of every wild card read
    as ALL, as it is in the initial deck, they are a permutation of
    it. *)
Theorem cards_conserved_up_to_colour connected n_ai_players fuel w i skipped t w' :
  start connected n_ai_players fuel w = Unfinished i skipped t w' →
  game_plain_wilds connected n_ai_players fuel w →
  uncoloured <$> all_cards t ≡ₚ cards.
Proof.
  unfold start, game_plain_wilds.
  destruct (setup connected n_ai_players w) as [e|[t0 w0]] eqn:Hs; [done|].
  intros Hrun Hplain. apply setup_conserves in Hs.
  rewrite (run_conserves_in_colour _ _ _ _ _ _ _ _ _ _ Hrun Hplain), Hs.
  by rewrite uncoloured_cards.
Qed.

(** A remote player and a computer player, two passes of the loop: the
    remote player draws, the computer player puts down a WILD and has
    it red. *)
Lemma cards_conserved_up_to_colour_witness :
  ∃ i skipped t w',
    start [(7, "Henry")] 1 2
      (mkWorld (λ s, if bool_decide (s = 7) then ["draw"] else [])
         [100; 90; 80; 70; 60; 50; 40; 30; 20; 10] [])
    = Unfinished i skipped t w'
    ∧ last (played t) = Some ("WILD", "RED")
    ∧ uncoloured <$> all_cards t ≡ₚ cards.
Proof.
  assert (∃ i skipped t w',
            start [(7, "Henry")] 1 2
              (mkWorld (λ s, if bool_decide (s = 7) then ["draw"] else [])
                 [100; 90; 80; 70; 60; 50; 40; 30; 20; 10] [])
            = Unfinished i skipped t w'
            ∧ last (played t) = Some ("WILD", "RED")) as (i & skipped & t & w' & H & Htop).
  { eexists _, _, _, _. vm_compute. split; reflexivity. }
  exists i, skipped, t, w'. split; [exact H|]. split; [exact Htop|].
  eapply (cards_conserved_up_to_colour [(7, "Henry")] 1 2); [exact H|].
  vm_compute. split; [|split; exact I].
  intros log card hand' replies' log' Hsel. discriminate Hsel.
Defined.

End GameFacts.

(** ** Games of computer players *)

Section ComputerPlayerFacts.

Import Protocol Engine.

Implicit Types (t : Table) (w : World) (order : list (Player * list Card)).

Lemma players_insert order i who hand hand' :
  order !! i = Some (who, hand) → (<[i:=(who, hand')]> order).*1 = order.*1.
Proof.
  intros Hi. rewrite list_fmap_insert. apply list_insert_id.
  by rewrite list_lookup_fmap, Hi.
Qed.

(** A pass through the loop body never changes who sits at the table. *)
Lemma turn_keeps_players connected i skipped who hand t w skipped' t' w' :
  play_order t !! i = Some (who, hand) →
  turn connected i skipped who hand t w = Continue skipped' t' w' →
  (play_order t').*1 ≡ₚ (play_order t).*1.
Proof.
  intros Hi. unfold turn. destruct skipped; [by intros [= _ <- _]|].
  destruct (match who with Human _ _ => _ | AI _ => _ end)
    as [w1|card hand' w1|w1|e w1|w1]; try done.
  - unfold draw_one. destruct (draw_card _ _ _) as [[e|[[c d1] p1]] r1]; [done|].
    intros [= _ <- _]. cbn [play_order]. by erewrite players_insert.
  - unfold apply_effects.
    set (order2 := if bool_decide (card.1 = "REVERSE")
                   then reverse (<[i:=(who, hand')]> (play_order t))
                   else <[i:=(who, hand')]> (play_order t)).
    assert (order2.*1 ≡ₚ (play_order t).*1) as H2.
    { unfold order2. case_bool_decide.
      - rewrite fmap_reverse, reverse_Permutation. by erewrite players_insert.
      - by erewrite players_insert. }
    destruct (ndraw_of card =? 0); [by intros [= _ <- _]|].
    destruct (draw_n _ _ _ _) as [[e|[[drawn d1] p1]] r1]; [done|].
    destruct (order2 !! _) as [[name hand_next]|] eqn:Hnext; [|done].
    intros [= _ <- _]. cbn [play_order]. by erewrite players_insert.
Qed.

(** With computer players only, [start] never returns: whatever the
    deal and the random source, no number of passes ends the game. *)
Lemma run_of_computer_players_never_finishes connected fuel i skipped t w w' :
  Forall (λ who, ∃ name, who = AI name) (play_order t).*1 →
  run connected fuel i skipped t w ≠ Finished w'.
Proof.
  revert i skipped t w. induction fuel as [|fuel IH]; intros i skipped t w Hai; [done|].
  cbn [run]. destruct (play_order t !! i) as [[who hand]|] eqn:Hi; [|by apply IH].
  assert (∃ name, who = AI name) as [name ->].
  { apply (proj1 (Forall_forall _ _) Hai). apply list_elem_of_fmap.
    exists (who, hand). split; [done|]. by eapply list_elem_of_lookup_2. }
  destruct (turn _ _ _ _ _ _ _) as [sk t1 w1|w1|e w1|w1] eqn:Ht; try done.
  - apply IH. eapply turn_keeps_players in Ht; [|done]. by rewrite Ht.
  - by apply ai_turn_never_returns in Ht.
Qed.

End ComputerPlayerFacts.

(** * Further properties of the code *)

(** ** Dealing and drawing *)

Section DealFacts.

Implicit Types (c : Card) (deck played hand : list Card) (r : Random.Rng).

(** [[deck.pop() for x in range(n)]] in closed form. *)
Lemma pop_n_closed n deck :
  pop_n n deck
  = if bool_decide (n ≤ length deck)
    then Some (reverse (drop (length deck - n) deck), take (length deck - n) deck)
    else None.
Proof.
  revert deck. induction n as [|n IH]; intros deck.
  { rewrite bool_decide_eq_true_2 by lia. simpl.
    rewrite Nat.sub_0_r, drop_all, firstn_all. done. }
  cbn [pop_n]. destruct deck as [|x deck _] using rev_ind.
  { rewrite bool_decide_eq_false_2; [done|simpl; lia]. }
  rewrite pop_snoc, IH, length_app. cbn [length].
  case_bool_decide as Hn.
  - rewrite bool_decide_eq_true_2 by lia.
    replace (length deck + 1 - S n) with (length deck - n) by lia.
    rewrite drop_app_le, take_app_le by lia.
    by rewrite reverse_app.
  - by rewrite bool_decide_eq_false_2 by lia.
Qed.

(** [generate_hand] takes the last seven cards of the deck, the last
    one first, and leaves the others in place; on a deck of fewer than
    seven cards it raises. *)
Theorem generate_hand_takes_the_tail deck :
  generate_hand deck
  = if bool_decide (7 ≤ length deck)
    then Some (reverse (drop (length deck - 7) deck), take (length deck - 7) deck)
    else None.
Proof. apply pop_n_closed. Qed.

(** A successful [draw_card] leaves the top of the discard pile where
    it was, moves exactly one card out of the two piles, and loses
    none: the card drawn and the two piles afterwards are the two piles
    before. *)
Theorem draw_card_keeps_the_top deck played r c deck' played' r' :
  draw_card deck played r = (inr (c, deck', played'), r') →
  last played' = last played
  ∧ c :: deck' ++ played' ≡ₚ deck ++ played
  ∧ length deck' + length played' + 1 = length deck + length played
  ∧ (deck ≠ [] → played' = played ∧ r' = r).
Proof.
  intros H. pose proof (draw_card_conserves _ _ _ _ _ _ _ H) as Hperm.
  split_and!; [|done| |].
  - revert H. unfold draw_card.
    destruct (Py.pop deck) as [[c0 d0]|]; [by intros [= _ _ <- _]|].
    destruct (Py.pop played) as [[top rest]|] eqn:Hp; [|done].
    apply pop_Some in Hp as ->.
    destruct (Random.shuffle rest r) as [shuffled r0].
    destruct (Py.pop _) as [[c0 d0]|]; [|done].
    intros [= _ _ <- _]. by rewrite last_snoc.
  - apply Permutation_length in Hperm. cbn [length] in Hperm.
    rewrite !length_app in Hperm. lia.
  - intros Hne. revert H. unfold draw_card.
    destruct (Py.pop deck) as [[c0 d0]|] eqn:Hd; [by intros [= _ _ <- <-]|].
    by apply pop_None in Hd.
Qed.

Lemma draw_card_keeps_the_top_witness :
  ∃ c deck' played' r',
    draw_card [] [("1", "RED"); ("2", "BLUE"); ("3", "GREEN")] [5]
    = (inr (c, deck', played'), r')
    ∧ last played' = last [("1", "RED"); ("2", "BLUE"); ("3", "GREEN")]
    ∧ c :: deck' ++ played' ≡ₚ [] ++ [("1", "RED"); ("2", "BLUE"); ("3", "GREEN")]
    ∧ length deck' + length played' + 1
      = length (@nil Card) + length [("1", "RED"); ("2", "BLUE"); ("3", "GREEN") : Card]
    ∧ (@nil Card ≠ [] → played' = [("1", "RED"); ("2", "BLUE"); ("3", "GREEN")] ∧ r' = [5]).
Proof.
  eexists _, _, _, _. split.
  - vm_compute. reflexivity.
  - eapply (draw_card_keeps_the_top [] [("1", "RED"); ("2", "BLUE"); ("3", "GREEN")] [5]).
    vm_compute. reflexivity.
Defined.

End DealFacts.

(** ** The checks and the deal of [start] *)

Section SetupFacts.

Import Protocol Engine.

Implicit Types (deck : list Card) (players : list Player) (w : World).

Lemma cards_length : length cards = 108.
Proof. reflexivity. Qed.

Lemma deal_success players deck :
  7 * length players ≤ length deck →
  ∃ entries deck',
    deal players deck = Some (entries, deck')
    ∧ entries.*1 = players
    ∧ Forall (λ hand, length hand = 7) entries.*2
    ∧ length deck' + 7 * length players = length deck.
Proof.
  revert deck. induction players as [|p players IH]; intros deck Hlen.
  { exists [], deck. split_and!; [done|done|constructor|simpl; lia]. }
  cbn [length] in Hlen. cbn [deal]. unfold generate_hand. rewrite pop_n_closed.
  rewrite bool_decide_eq_true_2 by lia.
  destruct (IH (take (length deck - 7) deck)) as (entries & deck' & -> & Hp & Hh & Hl).
  { rewrite length_take. lia. }
  rewrite length_take in Hl.
  exists ((p, reverse (drop (length deck - 7) deck)) :: entries), deck'.
  split_and!; [done|by rewrite fmap_cons, Hp| |cbn [length]; lia].
  rewrite fmap_cons. constructor; [|done].
  cbn [snd]. rewrite length_reverse, length_drop. lia.
Qed.

Lemma too_many_players n : (1 ≤ n)%Z → (108 / n <? 7)%Z = bool_decide (15 < n)%Z.
Proof.
  intros Hn. case_bool_decide as H.
  - apply Z.ltb_lt. apply Z.div_lt_upper_bound; lia.
  - apply Z.ltb_ge. apply Z.div_le_lower_bound; lia.
Qed.

Lemma setup_cases (connected : list (nat * string)) n_ai_players w :
  let n := (n_ai_players + Z.of_nat (length connected))%Z in
  match setup connected n_ai_players w with
  | inl e =>
      ((n_ai_players < 0)%Z ∧ e = Py.ValueError)
      ∨ ((0 ≤ n_ai_players)%Z ∧ n = 0%Z ∧ e = Py.ZeroDivisionError)
      ∨ ((0 ≤ n_ai_players)%Z ∧ (15 < n)%Z ∧ e = Py.ValueError)
  | inr (t, w') =>
      (0 ≤ n_ai_players)%Z ∧ (1 ≤ n ≤ 15)%Z
      ∧ (play_order t).*1
        = map (λ user : nat * string, Human user.1 user.2) connected
          ++ map (λ k, AI ("Player " +:+ Py.str k)) (seq 0 (Z.to_nat n_ai_players))
      ∧ Forall (λ hand, length hand = 7) (play_order t).*2
      ∧ length (played t) = 1
      ∧ (Z.of_nat (length (deck t)) = 107 - 7 * n)%Z
      ∧ inbox w' = inbox w
  end.
Proof.
  intros n. unfold setup. fold n.
  destruct (Z.ltb_spec n_ai_players 0) as [Hneg|Hpos]; [by left|].
  destruct (Z.eqb_spec n 0) as [H0|H0]; [right; by left|].
  rewrite cards_length. change (Z.of_nat 108) with 108%Z.
  rewrite too_many_players by lia.
  case_bool_decide as Hmany; [right; by right|].
  pose proof (generate_deck_Permutation (rng w)) as Hg.
  destruct (generate_deck (rng w)) as [deck0 r]. simpl in Hg.
  apply Permutation_length in Hg. rewrite cards_length in Hg.
  set (ais := map _ (seq 0 _)). set (humans := map _ connected).
  assert (length ais = Z.to_nat n_ai_players) as Hais
    by (unfold ais; by rewrite length_map, length_seq).
  assert (length humans = length connected) as Hhumans
    by (unfold humans; by rewrite length_map).
  destruct (deal_success ais deck0) as (ai_hands & deck1 & -> & Ha1 & Ha2 & Ha3); [lia|].
  destruct (deal_success humans deck1) as (hs & deck2 & -> & Hh1 & Hh2 & Hh3); [lia|].
  destruct (pop_is_Some deck2) as [[sc deck3] Hsc].
  { intros ->. simpl in Hh3. lia. }
  rewrite Hsc. apply pop_Some in Hsc as ->. rewrite length_app in Hh3.
  cbn [deck played play_order inbox length]. cbn [length] in Hh3.
  split_and!; try done; try lia.
  - by rewrite fmap_app, Hh1, Ha1.
  - rewrite fmap_app. by apply Forall_app.
Qed.


End SetupFacts.

(** ** The two question loops of a remote player *)

Section LoopFacts.

Import Protocol Engine.

Implicit Types (card top : Card) (hand played : list Card) (dec : string).
Implicit Types (replies : list string) (log : list Event).

(** The colour loop stops at the first reply that names one of the four
    colours, in any case of letters, and returns it in capitals; every
    reply before it gets the notice and the question again.  If no
    reply names a colour the loop is left waiting with all of them
    read. *)
Theorem select_color_first_valid sock replies log :
  let ask := send_input sock ["Select a color (RED, YELLOW, GREEN, BLUE): "] in
  let notice := send_user sock ["That color is invalid! Try again"] in
  match select_color sock replies log with
  | (Some c, rest, log') =>
      ∃ bad reply,
        replies = bad ++ reply :: rest
        ∧ Forall (λ b, Py.upper b ∉ colors) bad
        ∧ c = Py.upper reply ∧ c ∈ colors
        ∧ log' = log ++ concat (replicate (length bad) (ask ++ notice)) ++ ask
  | (None, rest, log') =>
      rest = []
      ∧ Forall (λ b, Py.upper b ∉ colors) replies
      ∧ log' = log ++ concat (replicate (length replies) (ask ++ notice)) ++ ask
  end.
Proof.
  intros ask notice. revert log.
  induction replies as [|reply replies IH]; intros log.
  { simpl. split_and!; [done|constructor|done]. }
  cbn [select_color]. fold ask notice. case_bool_decide as Hc.
  - exists [], reply. split_and!; [done|constructor|done|done|done].
  - specialize (IH ((log ++ ask) ++ notice)).
    destruct (select_color sock replies _) as [[[c|] rest] log'].
    + destruct IH as (bad & r & -> & Hbad & -> & Hin & ->).
      exists (reply :: bad), r. split_and!; [done|by constructor|done|done|].
      cbn [length replicate concat]. by rewrite <- !app_assoc.
    + destruct IH as (-> & Hbad & ->). split_and!; [done|by constructor|].
      cbn [length replicate concat]. by rewrite <- !app_assoc.
Qed.

Lemma attempt_Drawn_iff hand played dec :
  attempt hand played dec = Drawn ↔ Py.upper dec = "DRAW".
Proof.
  unfold attempt. case_bool_decide; [done|].
  split; [|done]. by repeat case_match.
Qed.

(** The card loop stops at the first reply that is not refused: the
    word DRAW in any case of letters, a number whose card is taken, or
    one on which the code raises.  Every reply before it was refused
    against the same hand; if all are refused the loop is left
    waiting. *)
Theorem select_card_first_decisive sock hand played replies log :
  match select_card sock hand played replies log with
  | (Stuck, rest, _) =>
      rest = [] ∧ Forall (λ b, ∃ notice, attempt hand played b = Refused notice) replies
  | (decision, rest, _) =>
      ∃ bad dec,
        replies = bad ++ dec :: rest
        ∧ Forall (λ b, ∃ notice, attempt hand played b = Refused notice) bad
        ∧ match decision with
          | Drew => Py.upper dec = "DRAW"
          | Play card hand' => attempt hand played dec = Accepted card hand'
          | Fail e => attempt hand played dec = Failed e
          | Stuck => False
          end
  end.
Proof.
  revert log. induction replies as [|dec replies IH]; intros log.
  { simpl. split; [done|constructor]. }
  cbn [select_card].
  destruct (attempt hand played dec) as [|c h|notice|e] eqn:Ha; cbv beta iota.
  - exists [], dec. split_and!; [done|apply Forall_nil_2|by eapply (proj1 (attempt_Drawn_iff _ _ _))].
  - exists [], dec. split_and!; [done|apply Forall_nil_2|done].
  - specialize (IH ((log ++ send_input sock ["Select your card: "])
                      ++ send_user sock [notice])).
    destruct (select_card sock hand played replies _) as [[d rest] log'].
    destruct d as [|c h|e|].
    + destruct IH as (bad & d0 & -> & Hbad & Hd).
      exists (dec :: bad), d0. split_and!; [done|constructor; eauto|done].
    + destruct IH as (bad & d0 & -> & Hbad & Hd).
      exists (dec :: bad), d0. split_and!; [done|constructor; eauto|done].
    + destruct IH as (bad & d0 & -> & Hbad & Hd).
      exists (dec :: bad), d0. split_and!; [done|constructor; eauto|done].
    + destruct IH as (-> & Hbad). split; [done|]. constructor; eauto.
  - exists [], dec. split_and!; [done|apply Forall_nil_2|done].
Qed.

Lemma pop_at_Some_index_mod {A} (l : list A) idx x l' :
  Py.pop_at l idx = Some (x, l') → Py.index_mod l idx = Some x.
Proof.
  intros H.
  assert (- Z.of_nat (length l) ≤ idx < Z.of_nat (length l))%Z as Hr.
  { revert H. unfold Py.pop_at.
    destruct (Z.ltb_spec idx 0); destruct (Z.leb_spec 0 (idx + Z.of_nat (length l)));
      destruct (Z.leb_spec 0 idx); destruct (Z.ltb_spec idx (Z.of_nat (length l)));
      destruct (Z.ltb_spec (idx + Z.of_nat (length l)) (Z.of_nat (length l)));
      simpl; try done; lia. }
  destruct (pop_at_in_range l idx Hr) as (y & Hy & Hpop). congruence.
Qed.

Lemma attempt_Accepted_legal hand played top dec card hand' :
  last played = Some top →
  attempt hand played dec = Accepted card hand' →
  legal card top = true ∧ hand ≡ₚ card :: hand'.
Proof.
  intros Htop Ha. split; [|by eapply attempt_Accepted].
  revert Ha. unfold attempt.
  destruct (bool_decide _); [done|]. destruct (negb _); [done|].
  destruct (negb _); [done|]. destruct (_ <? _)%Z; [done|].
  destruct (Py.index_mod hand _) as [ncard|] eqn:Hn; [|done].
  rewrite (legal_on_last _ _ _ Htop), Htop.
  destruct (legal ncard top) eqn:Hl; [|done].
  destruct (Py.pop_at hand _) as [[c h]|] eqn:Hp; [|done].
  intros [= <- <-]. apply pop_at_Some_index_mod in Hp. congruence.
Qed.

Lemma select_card_Play_attempt sock hand played replies log card hand' replies' log' :
  select_card sock hand played replies log = (Play card hand', replies', log') →
  ∃ dec, attempt hand played dec = Accepted card hand'.
Proof.
  revert log. induction replies as [|dec replies IH]; intros log; [done|].
  cbn [select_card].
  destruct (attempt hand played dec) as [|c h|notice|e] eqn:Ha; try done.
  - intros [= <- <- _ _]. by exists dec.
  - apply IH.
Qed.

Lemma select_color_Some sock replies log c replies' log' :
  select_color sock replies log = (Some c, replies', log') → c ∈ colors.
Proof.
  revert log. induction replies as [|reply replies IH]; intros log; [done|].
  cbn [select_color]. case_bool_decide as Hc; [by intros [= <- _ _]|apply IH].
Qed.

(** What a remote player puts down.  The card it gave up was in its
    hand and legal on the top of the discard pile, and it still holds a
    card.  A card that is not wild reaches the pile as it was; a wild
    card reaches it as rank WILD in one of the four colours. *)
Theorem human_puts_down_a_legal_card
    connected sock name hand played top w card hand' w' :
  last played = Some top →
  human_decide connected sock name hand played w = DPlayed card hand' w' →
  hand' ≠ []
  ∧ ∃ card0,
      hand ≡ₚ card0 :: hand'
      ∧ legal card0 top = true
      ∧ if is_wild card0 then card.1 = "WILD" ∧ card.2 ∈ colors else card = card0.
Proof.
  intros Htop. unfold human_decide. rewrite Htop.
  destruct (select_card _ _ _ _ _) as [[d replies] log1] eqn:Hsel.
  destruct d as [|card0 h| |]; try done.
  apply select_card_Play_attempt in Hsel as [dec Ha].
  destruct (attempt_Accepted_legal _ _ _ _ _ _ Htop Ha) as [Hl Hp].
  destruct h as [|c h]; [done|].
  destruct (is_wild card0) eqn:Hw.
  - destruct (select_color _ _ _) as [[[col|] ?] ?] eqn:Hcol; [|done].
    apply select_color_Some in Hcol.
    intros [= <- <- _]. split; [done|]. exists card0. by rewrite Hw.
  - intros [= <- <- _]. split; [done|]. exists card0. by rewrite Hw.
Qed.

Lemma human_puts_down_a_legal_card_witness :
  ∃ card hand' w',
    human_decide [7] 7 "Henry" [("WILD4", "ALL"); ("3", "RED")] [("5", "BLUE")]
      (mkWorld (λ s, if bool_decide (s = 7) then ["1"; "blue"] else []) [] [])
    = DPlayed card hand' w'
    ∧ hand' ≠ []
    ∧ ∃ card0,
        [("WILD4", "ALL"); ("3", "RED")] ≡ₚ card0 :: hand'
        ∧ legal card0 ("5", "BLUE") = true
        ∧ if is_wild card0 then card.1 = "WILD" ∧ card.2 ∈ colors else card = card0.
Proof.
  assert (∃ card hand' w',
            human_decide [7] 7 "Henry" [("WILD4", "ALL"); ("3", "RED")] [("5", "BLUE")]
              (mkWorld (λ s, if bool_decide (s = 7) then ["1"; "blue"] else []) [] [])
            = DPlayed card hand' w') as (card & hand' & w' & H).
  { eexists _, _, _. vm_compute. reflexivity. }
  exists card, hand', w'. split; [exact H|].
  eapply (human_puts_down_a_legal_card [7] 7 "Henry" [("WILD4", "ALL"); ("3", "RED")]
            [("5", "BLUE")] ("5", "BLUE")); [reflexivity|exact H].
Defined.

End LoopFacts.

(** ** The computer player *)

Section ComputerDecisionFacts.

Import Protocol Engine.

Implicit Types (card top : Card) (hand played : list Card) (w : World).
Implicit Types (count : list (string * nat)) (keys : list string).

Lemma choice_elem {A} (l : list A) r :
  l ≠ [] → ∃ x, (Random.choice l r).1 = Some x ∧ x ∈ l.
Proof.
  intros Hl. unfold Random.choice. destruct l as [|a l]; [done|].
  assert (∃ j, j < length (a :: l) ∧ Random.randbelow (length (a :: l)) r
                                     = (j, (Random.randbelow (length (a :: l)) r).2))
    as (j & Hj & ->).
  { unfold Random.randbelow. destruct r as [|x r].
    - exists 0. split; [simpl; lia|done].
    - exists (x mod length (a :: l)). split; [|done].
      apply Nat.mod_upper_bound. simpl. lia. }
  destruct (lookup_lt_is_Some_2 (a :: l) j Hj) as [x Hx].
  exists x. split; [done|]. by eapply list_elem_of_lookup_2.
Qed.

Lemma pop_at_nat {A} (l : list A) j x :
  l !! j = Some x → Py.pop_at l (Z.of_nat j) = Some (x, delete j l).
Proof.
  intros Hx. pose proof (lookup_lt_Some _ _ _ Hx) as Hj. unfold Py.pop_at.
  destruct (Z.ltb_spec (Z.of_nat j) 0); [lia|].
  destruct (Z.leb_spec 0 (Z.of_nat j)); [|lia].
  destruct (Z.ltb_spec (Z.of_nat j) (Z.of_nat (length l))); [|lia].
  simpl. by rewrite Nat2Z.id, Hx.
Qed.

(** A computer player draws exactly when no card of its hand is legal.
    Otherwise it gives up one of its legal cards, and nothing else
    happens to its hand; a card that is not wild reaches the pile as
    it was, a wild card keeps its rank and takes the colour the tally
    of the remaining hand gives.  With a card on the discard pile the
    decision neither raises nor waits. *)
Theorem ai_plays_legal_or_draws connected name hand played top w :
  last played = Some top →
  match ai_decide connected name hand played w with
  | DDrew _ => Forall (λ c, legal c top = false) hand
  | DPlayed card hand' _ =>
      ∃ j card0,
        hand !! j = Some card0 ∧ legal card0 top = true ∧ hand' = delete j hand
        ∧ if is_wild card0
          then ∃ fallback,
                 fallback ∈ colors
                 ∧ card = (card0.1, (max_count (Counter (map snd hand')) (fallback, 0)).1)
          else card = card0
  | _ => False
  end.
Proof.
  intros Htop. unfold ai_decide. destruct (Random.randint _ _ _) as [? r1].
  destruct (legal_choices_spec 0 hand played top Htop) as (choices & -> & Hspec).
  destruct choices as [|j0 choices].
  { apply Forall_lookup. intros j c Hj.
    destruct (legal c top) eqn:Hl; [|done].
    exfalso. eapply elem_of_nil, Hspec. split; [lia|].
    exists c. by rewrite Nat.sub_0_r. }
  destruct (choice_elem (j0 :: choices) r1) as (j & Hj & Hin); [done|].
  destruct (Random.choice (j0 :: choices) r1) as [oj r2]. simpl in Hj. subst oj.
  apply Hspec in Hin as (_ & card0 & Hc & Hl). rewrite Nat.sub_0_r in Hc.
  cbn [mbind option_bind]. rewrite (pop_at_nat _ _ _ Hc).
  destruct (is_wild card0) eqn:Hw.
  - destruct (choice_elem colors r2) as (fallback & Hf & Hfin); [done|].
    destruct (Random.choice colors r2) as [ofb r3]. simpl in Hf. subst ofb.
    cbv zeta. destruct (max_count _ _) as [col m] eqn:Hmax.
    exists j, card0. split_and!; [done..|]. rewrite Hw.
    exists fallback. split; [done|]. by rewrite Hmax.
  - exists j, card0. split_and!; [done..|]. by rewrite Hw.
Qed.

Lemma ai_plays_legal_or_draws_witness :
  match ai_decide [] "Player 0" [("7", "BLUE"); ("WILD", "ALL"); ("3", "RED")]
          [("5", "GREEN")] (mkWorld (λ _, []) [2; 0; 1] []) with
  | DDrew _ =>
      Forall (λ c, legal c ("5", "GREEN") = false) [("7", "BLUE"); ("WILD", "ALL"); ("3", "RED")]
  | DPlayed card hand' _ =>
      ∃ j card0,
        [("7", "BLUE"); ("WILD", "ALL"); ("3", "RED")] !! j = Some card0
        ∧ legal card0 ("5", "GREEN") = true
        ∧ hand' = delete j [("7", "BLUE"); ("WILD", "ALL"); ("3", "RED")]
        ∧ if is_wild card0
          then ∃ fallback,
                 fallback ∈ colors
                 ∧ card = (card0.1, (max_count (Counter (map snd hand')) (fallback, 0)).1)
          else card = card0
  | _ => False
  end.
Proof.
  apply (ai_plays_legal_or_draws [] "Player 0" [("7", "BLUE"); ("WILD", "ALL"); ("3", "RED")]
           [("5", "GREEN")] ("5", "GREEN")).
  reflexivity.
Defined.

Lemma count_of_counter_add k k' count :
  count_of k' (counter_add k count)
  = if bool_decide (k' = k) then S (count_of k count) else count_of k' count.
Proof.
  induction count as [|[k0 n] count IH].
  - simpl. repeat case_bool_decide; congruence.
  - simpl. destruct (decide (k0 = k)) as [->|Hk].
    + rewrite (bool_decide_eq_true_2 (k = k)) by done. simpl.
      repeat case_bool_decide; congruence.
    + rewrite (bool_decide_eq_false_2 (k0 = k)) by done. simpl.
      rewrite IH. repeat case_bool_decide; congruence.
Qed.

Lemma occurrences_cons k x keys :
  occurrences k (x :: keys) = (if bool_decide (x = k) then 1 else 0) + occurrences k keys.
Proof.
  unfold occurrences. case_bool_decide.
  - by rewrite filter_cons_True.
  - by rewrite filter_cons_False.
Qed.

Lemma count_of_tally k keys count :
  count_of k (foldl (λ count x, counter_add x count) count keys)
  = count_of k count + occurrences k keys.
Proof.
  revert count. induction keys as [|x keys IH]; intros count.
  { unfold occurrences. simpl. lia. }
  cbn [foldl]. rewrite IH, count_of_counter_add, occurrences_cons.
  destruct (decide (k = x)) as [->|Hk].
  - rewrite !bool_decide_eq_true_2 by done. lia.
  - rewrite (bool_decide_eq_false_2 (k = x)) by done.
    rewrite (bool_decide_eq_false_2 (x = k)) by congruence. lia.
Qed.

Lemma counter_add_keys k count :
  (counter_add k count).*1
  = if bool_decide (k ∈ count.*1) then count.*1 else count.*1 ++ [k].
Proof.
  induction count as [|[k0 n] count IH].
  { rewrite bool_decide_eq_false_2; [done|apply not_elem_of_nil]. }
  cbn [counter_add]. destruct (decide (k0 = k)) as [->|Hk].
  - rewrite (bool_decide_eq_true_2 (k = k)) by done. rewrite !fmap_cons. cbn [fst].
    rewrite bool_decide_eq_true_2; [done|]. apply elem_of_cons. by left.
  - rewrite (bool_decide_eq_false_2 (k0 = k)) by done. rewrite !fmap_cons. cbn [fst].
    rewrite IH. destruct (decide (k ∈ count.*1)) as [Hin|Hin].
    + rewrite !bool_decide_eq_true_2; [done|apply elem_of_cons; by right|done].
    + rewrite (bool_decide_eq_false_2 (k ∈ count.*1)) by done.
      rewrite bool_decide_eq_false_2; [done|].
      intros [?|?]%elem_of_cons; congruence.
Qed.

Lemma tally_keys keys count :
  NoDup count.*1 →
  (∀ k, k ∈ count.*1 → 0 < count_of k count) →
  let tally := foldl (λ count x, counter_add x count) count keys in
  NoDup tally.*1 ∧ ∀ k, k ∈ tally.*1 → 0 < count_of k tally.
Proof.
  revert count. induction keys as [|x keys IH]; intros count Hnd Hpos; [done|].
  simpl. apply IH.
  - rewrite counter_add_keys. case_bool_decide as Hin; [done|].
    apply NoDup_app. split_and!; [done| |apply NoDup_singleton].
    intros y Hy ->%list_elem_of_singleton. done.
  - intros k Hk. rewrite count_of_counter_add. case_bool_decide; [lia|].
    apply Hpos. rewrite counter_add_keys in Hk. case_bool_decide; [done|].
    apply elem_of_app in Hk as [?|?%list_elem_of_singleton]; [done|congruence].
Qed.

Lemma entry_count k n count : NoDup count.*1 → (k, n) ∈ count → count_of k count = n.
Proof.
  induction count as [|[k0 n0] count IH]; [by intros _ ?%elem_of_nil|].
  simpl. intros [Hk0 Hnd]%NoDup_cons [[= -> ->]|Hin]%elem_of_cons.
  - by rewrite bool_decide_eq_true_2.
  - case_bool_decide as Hk; [|by apply IH].
    subst k0. exfalso. apply Hk0. apply list_elem_of_fmap. by exists (k, n).
Qed.

Lemma count_entry k count : 0 < count_of k count → (k, count_of k count) ∈ count.
Proof.
  induction count as [|[k0 n0] count IH]; [simpl; lia|].
  simpl. case_bool_decide as Hk.
  - subst k0. intros _. apply elem_of_cons. by left.
  - intros H. apply elem_of_cons. right. by apply IH.
Qed.

Lemma max_from_spec best items :
  max_from best items ∈ best :: items
  ∧ ∀ x, x ∈ best :: items → x.2 ≤ (max_from best items).2.
Proof.
  revert best. induction items as [|y items IH]; intros best.
  { simpl. split; [apply elem_of_cons; by left|].
    by intros x ->%list_elem_of_singleton. }
  cbn [max_from]. destruct (IH (if best.2 <? y.2 then y else best)) as [Hin Hmax].
  split.
  - apply elem_of_cons in Hin as [->|Hin].
    + destruct (best.2 <? y.2); [apply elem_of_cons; right|]; apply elem_of_cons; by left.
    + apply elem_of_cons. right. apply elem_of_cons. by right.
  - intros x [->|[->|Hx]%elem_of_cons]%elem_of_cons.
    + etrans; [|apply Hmax; apply elem_of_cons; by left].
      destruct (Nat.ltb_spec best.2 y.2); lia.
    + etrans; [|apply Hmax; apply elem_of_cons; by left].
      destruct (Nat.ltb_spec best.2 y.2); lia.
    + apply Hmax. apply elem_of_cons. by right.
Qed.

(** The colour a computer player gives a wild card: from an empty hand
    the fallback it drew at random; otherwise a colour of the cards it
    still holds, with its number of cards, and no colour of the hand
    has more. *)
Theorem ai_colour_is_most_frequent keys d :
  match keys with
  | [] => max_count (Counter keys) d = d
  | _ :: _ =>
      (max_count (Counter keys) d).1 ∈ keys
      ∧ (max_count (Counter keys) d).2 = occurrences (max_count (Counter keys) d).1 keys
      ∧ ∀ k, occurrences k keys ≤ (max_count (Counter keys) d).2
  end.
Proof.
  destruct keys as [|k0 keys0]; [done|].
  set (keys := k0 :: keys0). unfold Counter.
  pose proof (tally_keys keys [] (NoDup_nil_2) (λ k H, False_ind _ (proj1 (elem_of_nil k) H)))
    as [Hnd Hpos].
  pose proof (λ k, count_of_tally k keys []) as Hcount. simpl in Hcount.
  set (tally := foldl _ [] keys) in *.
  assert (∀ k n, (k, n) ∈ tally → n = occurrences k keys ∧ 0 < n) as Hentry.
  { intros k n Hin. pose proof (entry_count _ _ _ Hnd Hin) as Hn.
    split; [by rewrite <- Hn, Hcount|].
    rewrite <- Hn. apply Hpos. apply list_elem_of_fmap. by exists (k, n). }
  assert (∀ k, 0 < occurrences k keys → (k, occurrences k keys) ∈ tally) as Hin.
  { intros k Hk. rewrite <- Hcount. apply count_entry. by rewrite Hcount. }
  destruct tally as [|x items] eqn:Ht.
  { exfalso. eapply elem_of_nil, (Hin k0). unfold keys. rewrite occurrences_cons.
    rewrite bool_decide_eq_true_2 by done. lia. }
  unfold max_count. destruct (max_from_spec x items) as [Hmem Hmax].
  destruct (max_from x items) as [k n]. cbn [fst snd] in *.
  destruct (Hentry k n Hmem) as [-> Hp]. split_and!; [|done|].
  - unfold occurrences in Hp.
    destruct (filter (λ y, y = k) keys) as [|y ys] eqn:Hf; [simpl in Hp; lia|].
    assert (y ∈ filter (λ y, y = k) keys) as Hy by (rewrite Hf; apply elem_of_cons; by left).
    apply list_elem_of_filter in Hy as [-> ?]. done.
  - intros k'. destruct (decide (0 < occurrences k' keys)) as [Hk'|Hk']; [|lia].
    apply (Hmax (k', occurrences k' keys)). by apply Hin.
Qed.

End ComputerDecisionFacts.

(** ** What a card put down sets off *)

Section EffectFacts.

Import Protocol Engine.

Implicit Types (card top : Card) (hand deck played : list Card) (t : Table) (w : World).

Lemma ndraw_of_values card :
  ndraw_of card
  = if bool_decide (card.1 = "DRAW2") then 2
    else if bool_decide (card.1 = "WILD4") then 4 else 0.
Proof.
  unfold ndraw_of. destruct card as [s col]. cbn [fst].
  destruct (decide (s = "DRAW2")) as [->|H2]; [done|].
  destruct (decide (s = "WILD4")) as [->|H4]; [done|].
  rewrite !bool_decide_eq_false_2; [done..|].
  intros [?|[?|?%elem_of_nil]%elem_of_cons]%elem_of_cons; done.
Qed.

(** DRAW2 and WILD4 make the player at position [(i + 1) % len] of the
    play order draw two and four cards; the cards come off the two
    piles, the card just put down included when the deck has to be
    refilled, and nobody else's hand changes.  No skip is set. *)
Theorem forced_draw_goes_to_the_next_player
    connected i who card hand' t w skipped t' w' :
  card.1 = "DRAW2" ∨ card.1 = "WILD4" →
  apply_effects connected i who card hand' t w = Continue skipped t' w' →
  let order := <[i:=(who, hand')]> (play_order t) in
  let next := (i + 1) mod length order in
  ∃ name hand_next drawn,
    order !! next = Some (name, hand_next)
    ∧ play_order t' = <[next:=(name, hand_next ++ drawn)]> order
    ∧ length drawn = (if bool_decide (card.1 = "DRAW2") then 2 else 4)
    ∧ drawn ++ deck t' ++ played t' ≡ₚ deck t ++ played t ++ [card]
    ∧ skipped = false
    ∧ log w' = (log w ++ broadcast connected [player_name who +:+ " played " +:+ fcard card])
               ++ broadcast connected
                    [player_name name; "drew " +:+ Py.str (length drawn) +:+ " cards"].
Proof.
  intros Hcard. unfold apply_effects. rewrite ndraw_of_values.
  rewrite (bool_decide_eq_false_2 (card.1 = "REVERSE")) by (destruct Hcard; congruence).
  rewrite (bool_decide_eq_false_2 (card.1 = "SKIP")) by (destruct Hcard; congruence).
  set (n := if bool_decide (card.1 = "DRAW2") then 2
            else if bool_decide (card.1 = "WILD4") then 4 else 0).
  assert (n = if bool_decide (card.1 = "DRAW2") then 2 else 4) as Hn.
  { unfold n. destruct Hcard as [H|H]; rewrite H; by repeat case_bool_decide. }
  assert ((n =? 0) = false) as -> by (rewrite Hn; by case_bool_decide).
  destruct (draw_n _ _ _ _) as [[e|[[drawn d1] p1]] r1] eqn:Hdraw; [done|].
  destruct (_ !! _) as [[name hand_next]|] eqn:Hnext; [|done].
  intros [= <- <- <-]. cbn [deck played play_order log say].
  pose proof (draw_n_length _ _ _ _ _ _ _ _ Hdraw) as Hlen.
  exists name, hand_next, drawn. split_and!; try done.
  - by rewrite Hlen.
  - by apply draw_n_conserves in Hdraw.
  - by rewrite Hlen.
Qed.

Lemma forced_draw_goes_to_the_next_player_witness :
  ∃ skipped t' w',
    apply_effects [] 0 (AI "Player 0") ("DRAW2", "RED") [("3", "RED")]
      (mkTable [("1", "RED"); ("2", "RED"); ("4", "RED")] [("5", "RED")]
         [(AI "Player 0", [("DRAW2", "RED"); ("3", "RED")]); (AI "Player 1", [("7", "BLUE")])])
      (mkWorld (λ _, []) [] [])
    = Continue skipped t' w'
    ∧ play_order t'
      = [(AI "Player 0", [("3", "RED")]);
         (AI "Player 1", [("7", "BLUE"); ("4", "RED"); ("2", "RED")])].
Proof.
  eexists _, _, _. split; [vm_compute; reflexivity|].
  edestruct (forced_draw_goes_to_the_next_player [] 0 (AI "Player 0") ("DRAW2", "RED")
               [("3", "RED")]
               (mkTable [("1", "RED"); ("2", "RED"); ("4", "RED")] [("5", "RED")]
                  [(AI "Player 0", [("DRAW2", "RED"); ("3", "RED")]);
                   (AI "Player 1", [("7", "BLUE")])])
               (mkWorld (λ _, []) [] []))
    as (name & hand_next & drawn & _ & Horder & _); [by left|vm_compute; reflexivity|].
  reflexivity.
Defined.

(** REVERSE turns the whole play order round: the player who put it
    down, seated at [i], now sits at [len - 1 - i], nothing is drawn and
    no skip is set.  With two players that is the seat the loop comes
    to next, so the same player acts again. *)
Theorem reverse_turns_the_order_round connected i who card hand hand' t w :
  card.1 = "REVERSE" →
  play_order t !! i = Some (who, hand) →
  ∃ w',
    apply_effects connected i who card hand' t w
    = Continue false
        (mkTable (deck t) (played t ++ [card])
           (reverse (<[i:=(who, hand')]> (play_order t)))) w'
    ∧ reverse (<[i:=(who, hand')]> (play_order t)) !! (length (play_order t) - 1 - i)
      = Some (who, hand')
    ∧ (length (play_order t) = 2 →
       reverse (<[i:=(who, hand')]> (play_order t)) !! ((i + 1) mod 2) = Some (who, hand')).
Proof.
  intros Hcard Hi. pose proof (lookup_lt_Some _ _ _ Hi) as Hlt.
  unfold apply_effects. rewrite ndraw_of_values, Hcard.
  rewrite (bool_decide_eq_true_2 ("REVERSE" = "REVERSE")) by done.
  eexists. split; [reflexivity|].
  assert (reverse (<[i:=(who, hand')]> (play_order t)) !! (length (play_order t) - 1 - i)
          = Some (who, hand')) as Hpos.
  { rewrite reverse_lookup by (rewrite length_insert; lia).
    rewrite length_insert.
    replace (length (play_order t) - S (length (play_order t) - 1 - i)) with i by lia.
    by apply list_lookup_insert_eq. }
  split; [done|]. intros H2. rewrite <- Hpos. f_equal. rewrite H2.
  destruct i as [|[|i]]; [done|done|lia].
Qed.

Lemma reverse_turns_the_order_round_witness :
  ∃ w',
    apply_effects [] 0 (AI "Player 0") ("REVERSE", "RED") [("3", "RED")]
      (mkTable [("1", "RED")] [("5", "RED")]
         [(AI "Player 0", [("REVERSE", "RED"); ("3", "RED")]); (AI "Player 1", [("7", "BLUE")])])
      (mkWorld (λ _, []) [] [])
    = Continue false
        (mkTable [("1", "RED")] ([("5", "RED")] ++ [("REVERSE", "RED")])
           (reverse (<[0:=(AI "Player 0", [("3", "RED")])]>
              [(AI "Player 0", [("REVERSE", "RED"); ("3", "RED")]);
               (AI "Player 1", [("7", "BLUE")])]))) w'.
Proof.
  edestruct (reverse_turns_the_order_round [] 0 (AI "Player 0") ("REVERSE", "RED")
               [("REVERSE", "RED"); ("3", "RED")] [("3", "RED")]
               (mkTable [("1", "RED")] [("5", "RED")]
                  [(AI "Player 0", [("REVERSE", "RED"); ("3", "RED")]);
                   (AI "Player 1", [("7", "BLUE")])])
               (mkWorld (λ _, []) [] []))
    as (w' & H & _); [reflexivity|reflexivity|].
  exists w'. exact H.
Defined.

(** A remote player who answers DRAW, in any case of letters, takes
    the last card of a deck that is not empty: its hand grows by that
    one card, the discard pile and every other hand stay as they are,
    no effect is applied and no skip is set. *)
Theorem human_draw_takes_one_card connected i sock name hand t w dec rest deck' c top :
  last (played t) = Some top →
  inbox w sock = dec :: rest →
  Py.upper dec = "DRAW" →
  deck t = deck' ++ [c] →
  ∃ w',
    turn connected i false (Human sock name) hand t w
    = Continue false
        (mkTable deck' (played t) (<[i:=(Human sock name, hand ++ [c])]> (play_order t))) w'
    ∧ inbox w' sock = rest
    ∧ rng w' = rng w
    ∧ log w'
      = ((log w
          ++ broadcast connected
               ["Its " +:+ name +:+ "'s turn! Current card is " +:+ fcard top]
          ++ send_user sock ["Its your turn!"; fhand hand])
         ++ send_input sock ["Select your card: "])
        ++ broadcast connected [name; "drew a card"].
Proof.
  intros Htop Hin Hdec Hdeck. unfold turn, human_decide. rewrite Htop, Hin.
  cbn [select_card]. rewrite (proj2 (attempt_Drawn_iff hand (played t) dec) Hdec).
  unfold draw_one, draw_card. cbn [rng deliver]. rewrite Hdeck, pop_snoc.
  eexists. split; [reflexivity|]. unfold deliver. cbn [inbox rng log say player_name].
  split_and!; [by case_bool_decide|done|done].
Qed.

Lemma human_draw_takes_one_card_witness :
  ∃ w',
    turn [7] 0 false (Human 7 "Henry") [("3", "RED")]
      (mkTable ([("1", "RED")] ++ [("2", "RED")]) [("5", "BLUE")]
         [(Human 7 "Henry", [("3", "RED")])])
      (mkWorld (λ s, if bool_decide (s = 7) then ["Draw"; "1"] else []) [] [])
    = Continue false
        (mkTable [("1", "RED")] [("5", "BLUE")]
           (<[0:=(Human 7 "Henry", [("3", "RED")] ++ [("2", "RED")])]>
              [(Human 7 "Henry", [("3", "RED")])])) w'
    ∧ inbox w' 7 = ["1"].
Proof.
  edestruct (human_draw_takes_one_card [7] 0 7 "Henry" [("3", "RED")]
               (mkTable ([("1", "RED")] ++ [("2", "RED")]) [("5", "BLUE")]
                  [(Human 7 "Henry", [("3", "RED")])])
               (mkWorld (λ s, if bool_decide (s = 7) then ["Draw"; "1"] else []) [] [])
               "Draw" ["1"] [("1", "RED")] ("2", "RED") ("5", "BLUE"))
    as (w' & H & Hin & _); [reflexivity..|].
  exists w'. split; [exact H|exact Hin].
Defined.

End EffectFacts.

(** ** What holds all through a game *)

Section InvariantFacts.

Import Protocol Engine.

Implicit Types (card top : Card) (hand deck played : list Card) (t : Table) (w : World).
Implicit Types (order : list (Player * list Card)).

Lemma draw_card_top deck played r c deck' played' r' :
  played ≠ [] →
  draw_card deck played r = (inr (c, deck', played'), r') → played' ≠ [].
Proof.
  intros Hp. unfold draw_card.
  destruct (Py.pop deck) as [[c0 d0]|]; [by intros [= _ _ <- _]|].
  destruct (Py.pop played) as [[x rest]|]; [|done].
  destruct (Random.shuffle rest r) as [shuffled r0].
  destruct (Py.pop _) as [[c0 d0]|]; [|done].
  by intros [= _ _ <- _].
Qed.

Lemma draw_card_error deck played r e r' :
  draw_card deck played r = (inl e, r') → e = Py.IndexError.
Proof.
  unfold draw_card.
  destruct (Py.pop deck) as [[c0 d0]|]; [done|].
  destruct (Py.pop played) as [[x rest]|]; [|by intros [= <- _]].
  destruct (Random.shuffle rest r) as [shuffled r0].
  destruct (Py.pop _) as [[c0 d0]|]; [done|by intros [= <- _]].
Qed.

Lemma draw_n_top n deck played r drawn deck' played' r' :
  played ≠ [] →
  draw_n n deck played r = (inr (drawn, deck', played'), r') → played' ≠ [].
Proof.
  revert deck played r drawn deck' played' r'.
  induction n as [|n IH]; intros deck played r drawn deck' played' r' Hp.
  { by intros [= _ _ <- _]. }
  cbn [draw_n].
  destruct (draw_card deck played r) as [[e|[[c d1] p1]] r1] eqn:H1; [done|].
  destruct (draw_n n d1 p1 r1) as [[e|[[cs d2] p2]] r2] eqn:H2; [done|].
  intros [= _ _ <- _]. eapply IH; [|done]. by eapply draw_card_top.
Qed.

Lemma draw_n_error n deck played r e r' :
  draw_n n deck played r = (inl e, r') → e = Py.IndexError.
Proof.
  revert deck played r e r'. induction n as [|n IH]; intros deck played r e r'; [done|].
  cbn [draw_n].
  destruct (draw_card deck played r) as [[e0|[[c d1] p1]] r1] eqn:H1.
  - intros [= <- _]. exact (draw_card_error _ _ _ _ _ H1).
  - destruct (draw_n n d1 p1 r1) as [[e0|[[cs d2] p2]] r2] eqn:H2; [|done].
    intros [= <- _]. exact (IH _ _ _ _ _ H2).
Qed.

(** On a hand that holds a card the modulo of line 137 has a divisor. *)
Lemma attempt_Failed_kind hand played dec e :
  hand ≠ [] → attempt hand played dec = Failed e → e ≠ Py.ZeroDivisionError.
Proof.
  intros Hh. unfold attempt.
  destruct (index_mod_is_Some hand (Py.int dec - 1) Hh) as [x ->].
  repeat case_match; try done; by intros [= <-].
Qed.

Lemma select_card_Fail_kind sock hand played replies log e replies' log' :
  hand ≠ [] →
  select_card sock hand played replies log = (Fail e, replies', log') →
  e ≠ Py.ZeroDivisionError.
Proof.
  intros Hh. revert log. induction replies as [|dec replies IH]; intros log; [done|].
  cbn [select_card].
  destruct (attempt hand played dec) as [|c h|notice|e0] eqn:Ha; try done.
  - apply IH.
  - intros [= <- _ _]. by eapply attempt_Failed_kind.
Qed.

Lemma human_decide_sound connected sock name hand played w :
  hand ≠ [] →
  match human_decide connected sock name hand played w with
  | DPlayed _ hand' _ => hand' ≠ []
  | DRaise e _ => e ≠ Py.ZeroDivisionError
  | _ => True
  end.
Proof.
  intros Hh. unfold human_decide. destruct (last played) as [top|]; [|done].
  destruct (select_card _ _ _ _ _) as [[d replies] log1] eqn:Hsel.
  destruct d as [|card0 h|e|]; try done.
  - destruct h as [|c h]; [done|].
    destruct (is_wild card0); [|done].
    by destruct (select_color _ _ _) as [[[col|] ?] ?].
  - by eapply select_card_Fail_kind.
Qed.

Lemma ai_decide_error connected name hand played w e w' :
  ai_decide connected name hand played w = DRaise e w' → e = Py.IndexError.
Proof.
  unfold ai_decide. repeat case_match; try done; by intros [= <- _].
Qed.

Lemma humans_hold_cards_insert order i who hand :
  humans_hold_cards order →
  match who with Human _ _ => hand ≠ [] | AI _ => True end →
  humans_hold_cards (<[i:=(who, hand)]> order).
Proof.
  intros Ho Hw. unfold humans_hold_cards.
  destruct (decide (i < length order)) as [Hi|Hi].
  - apply Forall_insert; done.
  - by rewrite list_insert_ge by lia.
Qed.

Lemma humans_hold_cards_lookup order i who hand :
  humans_hold_cards order → order !! i = Some (who, hand) →
  match who with Human _ _ => hand ≠ [] | AI _ => True end.
Proof.
  intros Ho Hi. by apply (proj1 (Forall_lookup _ _) Ho i (who, hand)).
Qed.

(** One pass through the loop body keeps a card on the discard pile and
    a card in the hand of every remote player, and does not divide by
    zero. *)
Lemma turn_sound connected i skipped who hand t w :
  play_order t !! i = Some (who, hand) →
  played t ≠ [] →
  humans_hold_cards (play_order t) →
  match turn connected i skipped who hand t w with
  | Continue _ t' _ => played t' ≠ [] ∧ humans_hold_cards (play_order t')
  | Raise e _ => e ≠ Py.ZeroDivisionError
  | _ => True
  end.
Proof.
  intros Hi Hp Ho. pose proof (humans_hold_cards_lookup _ _ _ _ Ho Hi) as Hhand.
  unfold turn. destruct skipped; [done|].
  set (decided := match who with Human _ _ => _ | AI _ => _ end).
  assert (match decided with
          | DPlayed _ hand' _ => match who with Human _ _ => hand' ≠ [] | AI _ => True end
          | DRaise e _ => e ≠ Py.ZeroDivisionError
          | _ => True
          end) as Hd.
  { unfold decided. destruct who as [sock name|name].
    - pose proof (human_decide_sound connected sock name hand (played t) w Hhand) as H.
      by destruct (human_decide _ _ _ _ _ _).
    - destruct (ai_decide _ _ _ _ _) eqn:H; try done.
      by rewrite (ai_decide_error _ _ _ _ _ _ _ H). }
  destruct decided as [w1|card hand' w1|w1|e w1|w1]; try done.
  - unfold draw_one.
    destruct (draw_card _ _ _) as [[e|[[c d1] p1]] r1] eqn:Hdraw.
    + by rewrite (draw_card_error _ _ _ _ _ Hdraw).
    + cbn [played play_order]. split; [by eapply draw_card_top|].
      apply humans_hold_cards_insert; [done|].
      destruct who; [|done]. by destruct hand.
  - unfold apply_effects.
    set (order2 := if bool_decide (card.1 = "REVERSE")
                   then reverse (<[i:=(who, hand')]> (play_order t))
                   else <[i:=(who, hand')]> (play_order t)).
    assert (humans_hold_cards order2) as H2.
    { unfold order2. case_bool_decide.
      - apply Forall_reverse. by apply humans_hold_cards_insert.
      - by apply humans_hold_cards_insert. }
    assert (played t ++ [card] ≠ []) as Hp1 by by destruct (played t).
    destruct (ndraw_of card =? 0); [done|].
    destruct (draw_n _ _ _ _) as [[e|[[drawn d1] p1]] r1] eqn:Hdraw.
    + by rewrite (draw_n_error _ _ _ _ _ _ Hdraw).
    + destruct (order2 !! _) as [[name hand_next]|] eqn:Hnext; [|done].
      cbn [played play_order]. split; [by eapply draw_n_top|].
      apply humans_hold_cards_insert; [done|].
      pose proof (humans_hold_cards_lookup _ _ _ _ H2 Hnext) as Hn.
      destruct name; [|done]. by destruct hand_next.
Qed.

Lemma run_sound connected fuel i skipped t w :
  played t ≠ [] →
  humans_hold_cards (play_order t) →
  match run connected fuel i skipped t w with
  | Unfinished _ _ t' _ => played t' ≠ [] ∧ humans_hold_cards (play_order t')
  | Aborted e _ => e ≠ Py.ZeroDivisionError
  | _ => True
  end.
Proof.
  revert i skipped t w. induction fuel as [|fuel IH]; intros i skipped t w Hp Ho; [done|].
  cbn [run]. destruct (play_order t !! i) as [[who hand]|] eqn:Hi; [|by apply IH].
  pose proof (turn_sound connected i skipped who hand t w Hi Hp Ho) as Ht.
  destruct (turn _ _ _ _ _ _ _) as [sk t1 w1|w1|e w1|w1]; try done.
  destruct Ht. by apply IH.
Qed.

(** All through a game there is a card on the discard pile and every
    remote player holds a card.  So [played[-1]] is there whenever a
    player's turn reads it, and the index taken modulo [len(hand)] has
    a divisor: once the checks of [start] are passed the game does not
    raise [ZeroDivisionError]. *)
Theorem game_keeps_a_top_card (connected : list (nat * string)) n_ai_players fuel w :
  match start connected n_ai_players fuel w with
  | Unfinished _ _ t _ => played t ≠ [] ∧ humans_hold_cards (play_order t)
  | Aborted e _ => e ≠ Py.ZeroDivisionError ∨ setup connected n_ai_players w = inl e
  | _ => True
  end.
Proof.
  unfold start. pose proof (setup_cases connected n_ai_players w) as Hs.
  destruct (setup connected n_ai_players w) as [e|[t0 w0]]; [by right|].
  destruct Hs as (_ & _ & _ & Hhands & Hplayed & _).
  pose proof (run_sound connected.*1 fuel 0 false t0 w0) as Hrun.
  destruct (run _ _ _ _ _ _) as [w1|e w1|w1|i sk t1 w1]; try done.
  - left. apply Hrun.
    + intros H0. by rewrite H0 in Hplayed.
    + apply Forall_forall. intros [who hand] Hin.
      assert (length hand = 7) as H7.
      { apply (proj1 (Forall_forall _ _) Hhands). apply list_elem_of_fmap.
        by exists (who, hand). }
      cbn [fst snd]. destruct who; [|done]. by destruct hand.
  - apply Hrun.
    + intros H0. by rewrite H0 in Hplayed.
    + apply Forall_forall. intros [who hand] Hin.
      assert (length hand = 7) as H7.
      { apply (proj1 (Forall_forall _ _) Hhands). apply list_elem_of_fmap.
        by exists (who, hand). }
      cbn [fst snd]. destruct who; [|done]. by destruct hand.
Qed.

Lemma turn_seats connected i skipped who hand t w skipped' t' w' :
  play_order t !! i = Some (who, hand) →
  turn connected i skipped who hand t w = Continue skipped' t' w' →
  (play_order t').*1 = (play_order t).*1
  ∨ (play_order t').*1 = reverse (play_order t).*1.
Proof.
  intros Hi. unfold turn. destruct skipped; [intros [= _ <- _]; by left|].
  destruct (match who with Human _ _ => _ | AI _ => _ end)
    as [w1|card hand' w1|w1|e w1|w1]; try done.
  - unfold draw_one. destruct (draw_card _ _ _) as [[e|[[c d1] p1]] r1]; [done|].
    intros [= _ <- _]. cbn [play_order]. left. by erewrite players_insert.
  - unfold apply_effects.
    set (order2 := if bool_decide (card.1 = "REVERSE")
                   then reverse (<[i:=(who, hand')]> (play_order t))
                   else <[i:=(who, hand')]> (play_order t)).
    assert (order2.*1 = (play_order t).*1 ∨ order2.*1 = reverse (play_order t).*1) as H2.
    { unfold order2. case_bool_decide.
      - right. rewrite fmap_reverse. by erewrite players_insert.
      - left. by erewrite players_insert. }
    destruct (ndraw_of card =? 0); [by intros [= _ <- _]|].
    destruct (draw_n _ _ _ _) as [[e|[[drawn d1] p1]] r1]; [done|].
    destruct (order2 !! _) as [[name hand_next]|] eqn:Hnext; [|done].
    intros [= _ <- _]. cbn [play_order]. by erewrite players_insert.
Qed.

Lemma run_seats connected fuel i skipped t w i' skipped' t' w' :
  run connected fuel i skipped t w = Unfinished i' skipped' t' w' →
  (play_order t').*1 = (play_order t).*1
  ∨ (play_order t').*1 = reverse (play_order t).*1.
Proof.
  revert i skipped t w. induction fuel as [|fuel IH]; intros i skipped t w.
  { intros [= _ _ <- _]. by left. }
  cbn [run]. destruct (play_order t !! i) as [[who hand]|] eqn:Hi; [|apply IH].
  destruct (turn _ _ _ _ _ _ _) as [sk t1 w1|w1|e w1|w1] eqn:Ht; try done.
  intros Hrun. apply IH in Hrun. apply turn_seats in Ht; [|done].
  destruct Hrun as [->| ->], Ht as [->| ->]; rewrite ?reverse_involutive; auto.
Qed.

(** Nobody joins or leaves a game: at every moment the players of the
    play order are those seated by [start], the remote players in the
    order of the dictionary and then the computer players, in that
    order or in the opposite one. *)
Theorem play_order_is_the_seating_or_its_reverse
    (connected : list (nat * string)) n_ai_players fuel w :
  let seats := map (λ user : nat * string, Human user.1 user.2) connected
               ++ map (λ k, AI ("Player " +:+ Py.str k)) (seq 0 (Z.to_nat n_ai_players)) in
  match start connected n_ai_players fuel w with
  | Unfinished _ _ t _ => (play_order t).*1 = seats ∨ (play_order t).*1 = reverse seats
  | _ => True
  end.
Proof.
  intros seats. unfold start. pose proof (setup_cases connected n_ai_players w) as Hs.
  destruct (setup connected n_ai_players w) as [e|[t0 w0]]; [done|].
  destruct Hs as (_ & _ & Hseats & _). fold seats in Hseats.
  destruct (run _ _ _ _ _ _) as [w1|e w1|w1|i sk t1 w1] eqn:Hrun; try done.
  apply run_seats in Hrun. by rewrite Hseats in Hrun.
Qed.

End InvariantFacts.

(** ** Registration: who ends up in the game *)

Section AdmissionFacts.

Import Protocol Registration.

Implicit Types (connected : list nat) (named : list (nat * string)) (log : list Event).

Lemma connect_loop_single maxconnections stime obs sock connected timeout log l timeout' log' :
  (sock = Listening ∧ connected = []) ∨ (∃ c, sock = Accepted c ∧ connected = [c]) →
  connect_loop maxconnections stime obs sock connected timeout log
  = (Returned l, timeout', log') →
  ∃ c, l = [c] ∧ (maxconnections = 1%Z ∨ (timeout' <= 0)%Q).
Proof.
  revert sock connected timeout log.
  induction obs as [|o obs IH]; intros sock connected timeout log Hstate.
  - cbn [connect_loop]. case_bool_decide as Hmax; [|done].
    destruct Hstate as [[_ ->]|(c & _ & ->)]; [done|].
    intros [= <- _ _]. exists c. split; [done|]. left. simpl in Hmax. lia.
  - cbn [connect_loop]. case_bool_decide as Hmax.
    { destruct Hstate as [[_ ->]|(c & _ & ->)]; [done|].
      intros [= <- _ _]. exists c. split; [done|]. left. simpl in Hmax. lia. }
    destruct (negb _); [done|].
    destruct (co_ready o).
    + destruct Hstate as [[-> ->]|(c & -> & ->)]; [|done].
      destruct (co_accept o) as [[conn addr] port].
      destruct (Qle_bool _ 0) eqn:Hq.
      * intros [= <- <- _]. exists conn. split; [done|]. right.
        by apply Qle_bool_iff.
      * apply IH. right. by exists conn.
    + destruct (negb _); [done|].
      destruct (Qle_bool _ 0) eqn:Hq; [|by apply IH].
      destruct Hstate as [[_ ->]|(c & _ & ->)]; [done|].
      intros [= <- <- _]. exists c. split; [done|]. right. by apply Qle_bool_iff.
Qed.

(** [await_connect] never returns more than one connection.  After the
    first [accept] the name [sock] is bound to the accepted socket, so
    the loop no longer watches the listening socket; it returns, with
    that one connection, when one connection was all that was asked
    for or when the remaining time is not positive. *)
Theorem await_connect_returns_one_connection maxconnections timeout stime obs l timeout' log :
  await_connect maxconnections timeout stime obs = (Returned l, timeout', log) →
  ∃ c, l = [c] ∧ (maxconnections = 1%Z ∨ (timeout' <= 0)%Q).
Proof. apply connect_loop_single. by left. Qed.

Lemma await_connect_returns_one_connection_witness :
  ∃ l timeout' log,
    await_connect 1 60 0 [Build_ConnectObs true (4, "10.0.0.2", 400) 1]
    = (Returned l, timeout', log)
    ∧ ∃ c, l = [c] ∧ (1%Z = 1%Z ∨ (timeout' <= 0)%Q).
Proof.
  assert (∃ l timeout' log,
            await_connect 1 60 0 [Build_ConnectObs true (4, "10.0.0.2", 400) 1]
            = (Returned l, timeout', log)) as (l & timeout' & log & H).
  { eexists _, _, _. vm_compute. reflexivity. }
  exists l, timeout', log. split; [exact H|].
  exact (await_connect_returns_one_connection 1 60 0 _ l timeout' log H).
Defined.

(** Once a connection is accepted, a second report from [select] makes
    the loop call [accept] on the accepted socket: it raises. *)
Theorem second_connection_raises maxconnections timeout stime o1 o2 obs :
  maxconnections ≠ 0%Z → maxconnections ≠ 1%Z →
  (0 < timeout)%Q → (stime <= co_now o1)%Q →
  co_ready o1 = true → co_ready o2 = true →
  (await_connect maxconnections timeout stime (o1 :: o2 :: obs)).1.1 = Raised Py.OSError.
Proof.
  intros H0 H1 Ht Hnow Hr1 Hr2. unfold await_connect. cbn [connect_loop].
  rewrite bool_decide_eq_false_2 by (simpl; lia).
  rewrite select_timeout_accepted by done. rewrite Hr1.
  destruct (co_accept o1) as [[conn addr] port].
  destruct (remaining_time_grows timeout stime (co_now o1) Ht Hnow) as [Hle ->].
  rewrite bool_decide_eq_false_2 by (simpl; lia).
  rewrite select_timeout_accepted by lra. by rewrite Hr2.
Qed.

Lemma second_connection_raises_witness :
  (await_connect 2 60 0
     [Build_ConnectObs true (4, "10.0.0.2", 400) 1;
      Build_ConnectObs true (5, "10.0.0.3", 400) 2]).1.1
  = Raised Py.OSError.
Proof.
  apply (second_connection_raises 2 60 0).
  - lia.
  - lia.
  - reflexivity.
  - unfold Qle. simpl. lia.
  - reflexivity.
  - reflexivity.
Defined.

Lemma remove_first_Permutation x connected connected' :
  remove_first x connected = Some connected' → connected ≡ₚ x :: connected'.
Proof.
  revert connected'. induction connected as [|y l IH]; intros l'; [done|].
  simpl. case_bool_decide as Hy; [by intros [= <-]; subst|].
  destruct (remove_first x l) as [l0|]; [|done].
  intros [= <-]. rewrite (IH l0 eq_refl). apply Permutation_swap.
Qed.

Lemma dict_set_fresh k v named : k ∉ named.*1 → dict_set k v named = named ++ [(k, v)].
Proof.
  induction named as [|[k' v'] named IH]; [done|].
  simpl. intros [Hk Hin]%not_elem_of_cons.
  rewrite bool_decide_eq_false_2 by congruence. by rewrite IH.
Qed.

Lemma closed_app log log' : closed (log ++ log') = closed log ++ closed log'.
Proof. apply omap_app. Qed.

Lemma closed_broadcast connected message : closed (broadcast connected message) = [].
Proof.
  unfold broadcast, closed. simpl. by induction connected.
Qed.

Lemma closed_late connected : closed (flat_map late_registration connected) = connected.
Proof.
  induction connected as [|c l IH]; [done|].
  simpl. unfold closed in *. simpl. by rewrite IH.
Qed.

Lemma name_ready_partition all rr named connected log named' connected' log' :
  NoDup (named.*1 ++ connected) →
  name_ready all rr named connected log = inr (named', connected', log') →
  named'.*1 ++ connected' ≡ₚ named.*1 ++ connected
  ∧ closed log' = closed log
  ∧ (named ≠ [] → named' ≠ []).
Proof.
  revert named connected log.
  induction rr as [|[[sock name] [addr port]] rr IH]; intros named connected log Hnd.
  { by intros [= <- <- <-]. }
  cbn [name_ready].
  destruct (remove_first sock connected) as [c1|] eqn:Hrm; [|done].
  apply remove_first_Permutation in Hrm.
  assert (sock ∉ named.*1) as Hfresh.
  { rewrite Hrm in Hnd. apply NoDup_app in Hnd as (_ & Hdis & _).
    intros Hin. apply (Hdis sock Hin). apply elem_of_cons. by left. }
  rewrite (dict_set_fresh _ _ _ Hfresh).
  intros Hrec.
  assert ((named ++ [(sock, name)]).*1 ++ c1 ≡ₚ named.*1 ++ connected) as Hstep.
  { rewrite fmap_app, Hrm. simpl. solve_Permutation. }
  apply IH in Hrec as (Hp & Hc & Hne); [|by rewrite Hstep].
  split_and!.
  - by rewrite Hp.
  - by rewrite Hc, closed_app, closed_broadcast, app_nil_r.
  - intros _. apply Hne. by destruct named.
Qed.

Lemma names_loop_partition cnum all stime obs named connected timeout log
    named' timeout' log' :
  NoDup (named.*1 ++ connected) →
  closed log = [] →
  names_loop cnum all stime obs named connected timeout log
  = (Returned named', timeout', log') →
  named' ≠ [] ∧ named'.*1 ++ closed log' ≡ₚ named.*1 ++ connected
  ∧ Forall (λ sock, Send sock (dumps "error" "You didn't send a name in time!") ∈ log')
      (closed log').
Proof.
  assert (∀ named connected log named' log',
            closed log = [] →
            finish_names named connected log = (Returned named', log') →
            named' ≠ [] ∧ named'.*1 ++ closed log' ≡ₚ named.*1 ++ connected
            ∧ Forall (λ sock, Send sock (dumps "error" "You didn't send a name in time!")
                                ∈ log') (closed log')) as Hfinish.
  { intros nm cn lg nm' lg' Hcl. unfold finish_names.
    destruct nm as [|entry nm]; [done|]. intros [= <- <-].
    rewrite closed_app, Hcl, closed_late. split_and!; [done|done|].
    apply Forall_forall. intros sock Hin. apply elem_of_app. right.
    clear -Hin. induction cn as [|c l IH]; [by apply elem_of_nil in Hin|].
    apply elem_of_cons in Hin as [->|Hin]; simpl.
    - apply elem_of_cons. by left.
    - do 2 (apply elem_of_cons; right). by apply IH. }
  revert named connected timeout log.
  induction obs as [|o obs IH]; intros named connected timeout log Hnd Hcl.
  - cbn [names_loop]. case_bool_decide; [done|].
    destruct (finish_names named connected log) as [res lg] eqn:Hf.
    intros [= -> _ ->]. by eapply Hfinish.
  - cbn [names_loop]. case_bool_decide.
    + destruct (negb _); [done|]. destruct (_ && _); [done|].
      destruct (name_ready all (no_ready o) named connected log)
        as [e|[[named1 connected1] log1]] eqn:Hr; [done|].
      apply name_ready_partition in Hr as (Hp & Hc & _); [|done].
      destruct (Qle_bool _ 0).
      * destruct (finish_names named1 connected1 log1) as [res lg] eqn:Hf.
        intros [= -> _ ->]. rewrite <- Hp. eapply Hfinish; [|done]. by rewrite Hc.
      * intros Hrec. rewrite <- Hp. eapply IH; [by rewrite Hp|by rewrite Hc|done].
    + destruct (finish_names named connected log) as [res lg] eqn:Hf.
      intros [= -> _ ->]. by eapply Hfinish.
Qed.

(** When [await_usernames] returns, every connection it was given has
    either a name in the dictionary or been sent the error object and
    closed, never both and never neither; at least one has a name. *)
Theorem await_usernames_names_or_closes connected timeout stime obs named timeout' log :
  NoDup connected →
  await_usernames connected timeout stime obs = (Returned named, timeout', log) →
  named ≠ []
  ∧ named.*1 ++ closed log ≡ₚ connected
  ∧ NoDup (named.*1 ++ closed log)
  ∧ Forall (λ sock, Send sock (dumps "error" "You didn't send a name in time!") ∈ log)
      (closed log).
Proof.
  intros Hnd H. apply names_loop_partition in H as (Hne & Hp & Hsent); [|done..].
  simpl in Hp. split_and!; [done|done| |done]. by rewrite Hp.
Qed.

Lemma await_usernames_names_or_closes_witness :
  ∃ named timeout' log,
    await_usernames [1; 2] 0 0 [Build_NameObs [(1, "Henry", ("127.0.0.1", 555))] 0]
    = (Returned named, timeout', log)
    ∧ named ≠ []
    ∧ named.*1 ++ closed log ≡ₚ [1; 2]
    ∧ NoDup (named.*1 ++ closed log)
    ∧ Forall (λ sock, Send sock (dumps "error" "You didn't send a name in time!") ∈ log)
        (closed log).
Proof.
  assert (∃ named timeout' log,
            await_usernames [1; 2] 0 0 [Build_NameObs [(1, "Henry", ("127.0.0.1", 555))] 0]
            = (Returned named, timeout', log)) as (named & timeout' & log & H).
  { eexists _, _, _. vm_compute. reflexivity. }
  exists named, timeout', log. split; [exact H|].
  eapply (await_usernames_names_or_closes [1; 2] 0 0); [|exact H].
  repeat constructor; intros Hin; repeat (apply elem_of_cons in Hin as [Hin|Hin]; [done|]);
    by apply elem_of_nil in Hin.
Defined.

End AdmissionFacts.

(** ** From the server's senders to the client's reader *)

Section FramingFacts.

Import Protocol.

Lemma append_cons c s t : String c s +:+ t = String c (s +:+ t).
Proof. reflexivity. Qed.

Lemma append_assoc s t u : (s +:+ t) +:+ u = s +:+ (t +:+ u).
Proof.
  induction s as [|c s IH]; [done|]. by rewrite !append_cons, IH.
Qed.

Lemma split_newline_line s rest :
  has_newline s = false →
  Client.split_newline (s +:+ newline +:+ rest) = s :: Client.split_newline rest.
Proof.
  induction s as [|c s IH]; [done|].
  cbn [has_newline]. intros [Hc Hs]%orb_false_iff.
  rewrite append_cons. cbn [Client.split_newline]. rewrite Hc.
  by rewrite (IH Hs).
Qed.

Lemma rstrip_last s c :
  Client.is_space c = false →
  Client.rstrip (s +:+ String c "") = s +:+ String c "".
Proof.
  intros Hc. induction s as [|a s IH].
  { change ("" +:+ String c "") with (String c ""). cbn [Client.rstrip]. by rewrite Hc. }
  rewrite append_cons. cbn [Client.rstrip]. rewrite IH.
  by destruct s.
Qed.

Lemma strip_dumps key value : Client.strip (dumps key value) = dumps key value.
Proof.
  unfold Client.strip, dumps.
  rewrite <- !append_assoc. rewrite rstrip_last by done.
  by rewrite !append_assoc.
Qed.

Lemma dumps_not_empty key value : dumps key value ≠ "".
Proof. done. Qed.

Lemma parts_of_lines (messages : list (string * string)) :
  Client.parts
    (foldr (λ m data, (dumps m.1 m.2 +:+ newline) +:+ data) "" messages)
  = map (λ m, dumps m.1 m.2) messages.
Proof.
  unfold Client.parts. induction messages as [|[key value] messages IH]; [done|].
  cbn [foldr map fst snd]. rewrite append_assoc.
  rewrite split_newline_line by apply dumps_no_newline.
  cbn [map]. rewrite strip_dumps.
  rewrite filter_cons_True by apply dumps_not_empty.
  by rewrite IH.
Qed.

(** The framing works: when one chunk holds what [broadcast],
    [send_user] and [send_input] sent in a row, the client's reader
    cuts it back into exactly the JSON objects that were sent, in
    order, whatever their texts. *)
Theorem client_reads_the_objects_sent (messages : list (string * string)) :
  Client.parts
    (foldr (λ m data, (dumps m.1 m.2 +:+ newline) +:+ data) "" messages)
  = map (λ m, dumps m.1 m.2) messages.
Proof. apply parts_of_lines. Qed.

End FramingFacts.

Section DecodingFacts.

Import Protocol.

Lemma scan_escape_char c rest :
  Client.scan_string (escape_char c +:+ rest)
  = match Client.scan_string rest with
    | Some (text, after) => Some (String c text, after)
    | None => None
    end.
Proof. destruct c as [[] [] [] [] [] [] [] []]; reflexivity. Qed.

Lemma scan_escape s rest :
  Client.scan_string (escape s +:+ quote +:+ rest) = Some (s, rest).
Proof.
  induction s as [|c s IH]; [done|].
  cbn [escape]. by rewrite append_assoc, scan_escape_char, IH.
Qed.

Lemma scan_escape_quote s rest :
  Client.scan_string (escape s +:+ String (ascii_of_nat 34) rest) = Some (s, rest).
Proof. exact (scan_escape s rest). Qed.

Lemma append_nil_l s : "" +:+ s = s.
Proof. reflexivity. Qed.

Lemma expect_here n c s :
  Client.is_json_space c = false → (nat_of_ascii c =? n) = true →
  Client.expect n (String c s) = Some s.
Proof. intros Hs Hn. unfold Client.expect. cbn [Client.skip_space]. by rewrite Hs, Hn. Qed.

Lemma expect_space n c s :
  Client.is_json_space c = true → Client.expect n (String c s) = Client.expect n s.
Proof. intros Hs. unfold Client.expect. cbn [Client.skip_space]. by rewrite Hs. Qed.

Lemma loads_of_dumps key value : Client.loads (dumps key value) = Some (key, value).
Proof.
  unfold dumps, json_string, Client.loads, quote.
  rewrite !append_assoc, !append_cons, !append_nil_l.
  rewrite expect_here by done. cbn [mbind option_bind].
  rewrite expect_here by done. cbn [mbind option_bind].
  rewrite scan_escape_quote. cbn [mbind option_bind].
  rewrite expect_here by done. cbn [mbind option_bind].
  rewrite expect_space by done. rewrite expect_here by done. cbn [mbind option_bind].
  rewrite scan_escape_quote. cbn [mbind option_bind].
  rewrite expect_here by done. cbn [mbind option_bind].
  done.
Qed.

(** Encoding and decoding agree: what [json.dumps] makes of a kind and
    a text, quotes, backslashes, newlines and other control characters
    in the text included, [json.loads] reads back as that kind and
    that text. *)
Theorem loads_dumps key value : Client.loads (dumps key value) = Some (key, value).
Proof. apply loads_of_dumps. Qed.

(** The whole way: when one chunk holds lines sent by [broadcast],
    [send_user] and [send_input], [Client.recv] yields the very kinds
    and texts that were sent, in order. *)
Theorem client_gets_what_was_sent (messages : list (string * string)) :
  Client.recv
    (foldr (λ m data, (dumps m.1 m.2 +:+ newline) +:+ data) "" messages)
  = map Some messages.
Proof.
  unfold Client.recv. rewrite (parts_of_lines messages).
  induction messages as [|[key value] messages IH]; [done|].
  cbn [map fst snd]. by rewrite loads_of_dumps, IH.
Qed.

End DecodingFacts.

(** ** The client's loop *)

Section ClientFacts.

Import Protocol.

Implicit Types (messages : list (string * string)) (answers : list string).

Lemma recv_of_lines messages :
  Client.recv
    (foldr (λ m data, (dumps m.1 m.2 +:+ newline) +:+ data) "" messages)
  = map Some messages.
Proof.
  unfold Client.recv. rewrite (parts_of_lines messages).
  induction messages as [|[key value] messages IH]; [done|].
  cbn [map fst snd]. by rewrite loads_of_dumps, IH.
Qed.

Lemma shown_Shown text out : Client.shown (Client.Shown text :: out) = text :: Client.shown out.
Proof. reflexivity. Qed.

Lemma shown_Replied text out : Client.shown (Client.Replied text :: out) = Client.shown out.
Proof. reflexivity. Qed.

Lemma replies_Shown text out : Client.replies (Client.Shown text :: out) = Client.replies out.
Proof. reflexivity. Qed.

Lemma replies_Replied text out :
  Client.replies (Client.Replied text :: out) = text :: Client.replies out.
Proof. reflexivity. Qed.

Lemma handle_requests messages answers :
  Forall (λ m, m.1 ≠ "error") messages →
  length (filter (λ m, m.1 ≠ "message") messages) ≤ length answers →
  ∃ out,
    Client.handle (map Some messages) answers
    = (out, drop (length (filter (λ m, m.1 ≠ "message") messages)) answers, None)
    ∧ Client.replies out
      = take (length (filter (λ m, m.1 ≠ "message") messages)) answers
    ∧ Client.shown out = map snd messages.
Proof.
  intros Hok. revert answers.
  induction Hok as [|[action data] messages Hne _ IH]; intros answers Hlen.
  { exists []. by rewrite drop_0, take_0. }
  cbn [fst] in Hne. cbn [map Client.handle].
  destruct (decide (action = "message")) as [->|Hm].
  - rewrite filter_cons_False in * by (cbn [fst]; by intros H; apply H).
    destruct (IH answers Hlen) as (out & -> & Hr & Hs).
    rewrite bool_decide_eq_true_2 by done.
    exists (Client.Shown data :: out). split_and!; [done|by rewrite replies_Shown|].
    by rewrite shown_Shown, Hs.
  - rewrite filter_cons_True in * by done. cbn [length] in *.
    rewrite bool_decide_eq_false_2 by done. rewrite bool_decide_eq_false_2 by done.
    destruct answers as [|response answers]; [simpl in Hlen; lia|].
    cbn [length] in Hlen.
    destruct (IH answers ltac:(lia)) as (out & -> & Hr & Hs).
    exists (Client.Shown data :: Client.Replied response :: out).
    split_and!; [done| |].
    + by rewrite replies_Shown, replies_Replied, Hr.
    + by rewrite shown_Shown, shown_Replied, Hs.
Qed.

(** A session seen from the client.  The server's lines arrive, then
    the connection is closed: the client shows every text in order,
    sends one reply for each object that is not a "message" (the
    user's answers, in order, and nothing else), prints "Game over!"
    and stops. *)
Theorem client_answers_each_request messages answers :
  messages ≠ [] →
  Forall (λ m, m.1 ≠ "error") messages →
  length (filter (λ m, m.1 ≠ "message") messages) ≤ length answers →
  ∃ out,
    Client.run
      [foldr (λ m data, (dumps m.1 m.2 +:+ newline) +:+ data) "" messages; ""] answers
    = (out ++ [Client.Shown "Game over!"], Client.GameOver)
    ∧ Client.replies out
      = take (length (filter (λ m, m.1 ≠ "message") messages)) answers
    ∧ Client.shown out = map snd messages.
Proof.
  intros Hne Hok Hlen.
  destruct (handle_requests messages answers Hok Hlen) as (out & Hh & Hr & Hs).
  exists out. split; [|done].
  cbn [Client.run]. rewrite bool_decide_eq_false_2.
  - rewrite recv_of_lines, Hh. by rewrite bool_decide_eq_true_2.
  - destruct messages as [|[key value] messages]; [done|].
    cbn [foldr fst snd]. unfold dumps. by rewrite !append_assoc.
Qed.

Lemma client_answers_each_request_witness :
  ∃ out,
    Client.run
      [foldr (λ m data, (dumps m.1 m.2 +:+ newline) +:+ data) ""
         [("message", "Its your turn! 3 RED"); ("input", "Select your card: ")]; ""]
      ["1"; "2"]
    = (out ++ [Client.Shown "Game over!"], Client.GameOver)
    ∧ Client.replies out
      = take (length (filter (λ m : string * string, m.1 ≠ "message")
                        [("message", "Its your turn! 3 RED"); ("input", "Select your card: ")]))
          ["1"; "2"]
    ∧ Client.shown out
      = map snd [("message", "Its your turn! 3 RED"); ("input", "Select your card: ")].
Proof.
  apply (client_answers_each_request
           [("message", "Its your turn! 3 RED"); ("input", "Select your card: ")] ["1"; "2"]).
  - discriminate.
  - repeat constructor; discriminate.
  - vm_compute. lia.
Defined.

(** An error object ends the client with an exception: nothing after
    it is shown or answered, and "Game over!" is not printed. *)
Theorem client_stops_at_the_error_object before data after answers :
  Forall (λ m, m.1 = "message") before →
  Client.handle (map Some (before ++ ("error", data) :: after)) answers
  = (map (λ m, Client.Shown m.2) before, answers, Some (Client.Failed data)).
Proof.
  intros Hb. induction Hb as [|[action text] before Ha _ IH]; [done|].
  cbn [fst] in Ha. subst action.
  cbn [app map Client.handle snd]. rewrite bool_decide_eq_true_2 by done.
  by rewrite IH.
Qed.

Lemma client_stops_at_the_error_object_witness :
  Client.handle
    (map Some ([("message", "hello")] ++ ("error", "You didn't send a name in time!")
                 :: [("input", "Select your card: ")])) ["1"]
  = (map (λ m : string * string, Client.Shown m.2) [("message", "hello")], ["1"],
     Some (Client.Failed "You didn't send a name in time!")).
Proof.
  apply (client_stops_at_the_error_object [("message", "hello")]).
  repeat constructor.
Defined.

End ClientFacts.
